(** * YarnDB: a shallow embedding of the datastore core

    The Go sources modelled here are the datastore (type [YAMLDatastore] with
    [Set], [Get], [Delete], [Query], [CreateIndex], [BeginTransaction],
    [Merge], [updateIndexes], [getNestedValue]), the transaction handle
    ([Transaction.Set], [Delete], [Commit], [Rollback]), the loader
    ([ConcurrentRead], [readFile]) and the persister ([Save]).

    Conventions of the embedding.
    - A Go [map] is a [gmap]; [map[string]bool] whose entries are all [true]
      is a [gset].  A [for ... range] loop over a map visits every entry once
      in an unspecified order: where the loop's result does not depend on
      the order it is written with [filter], [map_imap] or [map_fold];
      where it does, the function takes the visiting order as an argument.
    - The three locks [mu], [cacheLock] and [saveMu] are taken and released
      inside one call and are not modelled (calls are run one at a time).
      [txMu] is held from [BeginTransaction] to [Commit]/[Rollback] and is
      modelled as a boolean.
    - A run-time panic (or fatal error) ends the program: outcome [Panics].
      A call that waits for [txMu] has outcome [Blocks]. *)

From stdpp Require Import base decidable countable strings list gmap fin_maps pretty.
From Stdlib Require Import ZArith Ascii.

Local Open Scope string_scope.
Set Warnings "-register-all,-clear-no-such-hyp".

(** ** Documents *)

(** What [yaml.Unmarshal] stores in an [interface{}]: [nil], a string, an
    [int], a [bool], a slice, a [map[string]interface{}] (all keys strings)
    or a [map[interface{}]interface{}].  [float64] and timestamps are left
    out of the model.  Scalars are exactly the values Go can hash, hence the
    only possible keys of a map whose key type is [interface{}]. *)
Inductive scalar :=
| Nil
| Str (s : string)
| Int (n : Z)
| Bool (b : bool).

(** The entries of a mapping are listed in the order [fmt] prints them (by
    key); the keys of one mapping are pairwise different. *)
Inductive value :=
| Scalar (a : scalar)
| Seq (l : list value)
| Map (m : list (string * value))
| IMap (m : list (scalar * value)).

Abbreviation VNil := (Scalar Nil).

#[global] Instance scalar_eq_dec : EqDecision scalar.
Proof. solve_decision. Defined.

Definition scalar_to_sum (a : scalar) : unit + string + Z + bool :=
  match a with
  | Nil => inl (inl (inl tt))
  | Str s => inl (inl (inr s))
  | Int n => inl (inr n)
  | Bool b => inr b
  end.

Definition scalar_of_sum (x : unit + string + Z + bool) : scalar :=
  match x with
  | inl (inl (inl _)) => Nil
  | inl (inl (inr s)) => Str s
  | inl (inr n) => Int n
  | inr b => Bool b
  end.

#[global] Instance scalar_countable : Countable scalar.
Proof.
  apply (inj_countable' scalar_to_sum scalar_of_sum).
  intros []; reflexivity.
Defined.

(** [data == nil] on an [interface{}]. *)
Definition is_nil (v : value) : bool :=
  match v with
  | Scalar Nil => true
  | _ => false
  end.

(** The key under which Go stores [val] in a [map[interface{}]string];
    [None] when the dynamic type of [val] is a slice or a map, on which the
    run time panics ("hash of unhashable type"). *)
Definition as_key (val : value) : option scalar :=
  match val with
  | Scalar a => Some a
  | _ => None
  end.

(** [m[k]] on a document mapping. *)
Fixpoint assoc {K V : Type} `{EqDecision K} (k : K) (m : list (K * V)) : option V :=
  match m with
  | [] => None
  | (k', v) :: m' => if decide (k = k') then Some v else assoc k m'
  end.

(** ** Strings *)

(** [strings.Split(s, sep)] for a separator of one character. *)
Fixpoint strings_Split (s : string) (sep : Ascii.ascii) : list string :=
  match s with
  | EmptyString => [EmptyString]
  | String c s' =>
      if decide (c = sep) then EmptyString :: strings_Split s' sep
      else match strings_Split s' sep with
           | h :: t => String c h :: t
           | [] => [String c EmptyString]
           end
  end.

(** [fmt.Sprintf("%v", val)]. *)
Definition fmt_scalar (a : scalar) : string :=
  match a with
  | Nil => "<nil>"
  | Str s => s
  | Int n => pretty n
  | Bool true => "true"
  | Bool false => "false"
  end.

Fixpoint Sprintf_v (val : value) : string :=
  match val with
  | Scalar a => fmt_scalar a
  | Seq l => "[" +:+ String.concat " " (map Sprintf_v l) +:+ "]"
  | Map m =>
      "map[" +:+ String.concat " "
        (map (fun e => fst e +:+ ":" +:+ Sprintf_v (snd e)) m) +:+ "]"
  | IMap m =>
      "map[" +:+ String.concat " "
        (map (fun e => fmt_scalar (fst e) +:+ ":" +:+ Sprintf_v (snd e)) m) +:+ "]"
  end.

(** [filepath.Join(dir, name)] for a clean, non-empty [dir] and a [name]
    without separators. *)
Definition filepath_Join (dir name : string) : string := dir +:+ "/" +:+ name.

(** The shard file both [Set] and [Save] derive from a file id. *)
Definition shard_path (dir fileID : string) : string :=
  filepath_Join dir ("records_" +:+ fileID +:+ ".yaml").

(** ** getNestedValue *)

(** The loop of [getNestedValue] over the segments of the key. *)
Fixpoint walk (current : value) (keys : list string) : option value :=
  match keys with
  | [] => Some current
  | k :: keys' =>
      match current with
      | Map v => match assoc k v with
                 | Some next => walk next keys'
                 | None => None
                 end
      | IMap v => match assoc (Str k) v with
                  | Some next => walk next keys'
                  | None => None
                  end
      | _ => None
      end
  end.

(** [getNestedValue(data, key)]: [Some val] for [(val, true)], [None] for
    [(nil, false)]. *)
Definition getNestedValue (data : value) (key : string) : option value :=
  walk data (strings_Split key "."%char).

(** ** The datastore *)

(** The two maps [make]s allocate together for a transaction ([tx.data] and
    [tx.files]); [ds.txData]/[ds.txFiles] and the handle's fields refer to
    the same pair, so a write through one is seen through the other. *)
Record overlay := {
  ov_data : gmap string value;   (* id -> replacement, or nil for a tombstone *)
  ov_files : gset string
}.

Definition empty_overlay : overlay := {| ov_data := ∅; ov_files := ∅ |}.

(** [struct YAMLDatastore].  [txData] is the location in [heap] of the pair
    of maps [ds.txData]/[ds.txFiles] refer to; [heap] holds every such pair
    allocated so far.  [cache] is [ds.cache], a map that only ever has the
    key "merged".  [loadCount] (a statistic) is left out. *)
Record YAMLDatastore := {
  data : gmap string value;
  files : gset string;
  indexes : gmap string (gmap scalar string);
  dir : string;
  cache : option (gmap string value);
  dirty : bool;
  txMu : bool;
  txActive : bool;
  txData : nat;
  heap : list overlay
}.

(** [struct Transaction]: the handle's [data] and [files] maps, as their
    location in the heap.  The field [commit] is only ever written. *)
Record Transaction := Tx { tx_data : nat }.

Definition set_data (x : gmap string value) (ds : YAMLDatastore) : YAMLDatastore :=
  {| data := x; files := files ds; indexes := indexes ds; dir := dir ds;
     cache := cache ds; dirty := dirty ds; txMu := txMu ds;
     txActive := txActive ds; txData := txData ds; heap := heap ds |}.

Definition set_files (x : gset string) (ds : YAMLDatastore) : YAMLDatastore :=
  {| data := data ds; files := x; indexes := indexes ds; dir := dir ds;
     cache := cache ds; dirty := dirty ds; txMu := txMu ds;
     txActive := txActive ds; txData := txData ds; heap := heap ds |}.

Definition set_indexes (x : gmap string (gmap scalar string)) (ds : YAMLDatastore) : YAMLDatastore :=
  {| data := data ds; files := files ds; indexes := x; dir := dir ds;
     cache := cache ds; dirty := dirty ds; txMu := txMu ds;
     txActive := txActive ds; txData := txData ds; heap := heap ds |}.

Definition set_cache (x : option (gmap string value)) (ds : YAMLDatastore) : YAMLDatastore :=
  {| data := data ds; files := files ds; indexes := indexes ds; dir := dir ds;
     cache := x; dirty := dirty ds; txMu := txMu ds;
     txActive := txActive ds; txData := txData ds; heap := heap ds |}.

Definition set_dirty (x : bool) (ds : YAMLDatastore) : YAMLDatastore :=
  {| data := data ds; files := files ds; indexes := indexes ds; dir := dir ds;
     cache := cache ds; dirty := x; txMu := txMu ds;
     txActive := txActive ds; txData := txData ds; heap := heap ds |}.

Definition set_txMu (x : bool) (ds : YAMLDatastore) : YAMLDatastore :=
  {| data := data ds; files := files ds; indexes := indexes ds; dir := dir ds;
     cache := cache ds; dirty := dirty ds; txMu := x;
     txActive := txActive ds; txData := txData ds; heap := heap ds |}.

Definition set_txActive (x : bool) (ds : YAMLDatastore) : YAMLDatastore :=
  {| data := data ds; files := files ds; indexes := indexes ds; dir := dir ds;
     cache := cache ds; dirty := dirty ds; txMu := txMu ds;
     txActive := x; txData := txData ds; heap := heap ds |}.

Definition set_txData (x : nat) (ds : YAMLDatastore) : YAMLDatastore :=
  {| data := data ds; files := files ds; indexes := indexes ds; dir := dir ds;
     cache := cache ds; dirty := dirty ds; txMu := txMu ds;
     txActive := txActive ds; txData := x; heap := heap ds |}.

Definition set_heap (x : list overlay) (ds : YAMLDatastore) : YAMLDatastore :=
  {| data := data ds; files := files ds; indexes := indexes ds; dir := dir ds;
     cache := cache ds; dirty := dirty ds; txMu := txMu ds;
     txActive := txActive ds; txData := txData ds; heap := x |}.

(** The errors the core creates with [errors.New], and a failed shard write. *)
Inductive error :=
| ErrNotFound        (* "record not found" *)
| ErrIndexExists     (* "index already exists" *)
| ErrTxActive        (* "transaction already active" *)
| ErrIO (path : string).

(** How a call ends: it returns [a] in state [ds]; it panics; or it waits
    for a mutex that is held. *)
Inductive outcome (A : Type) :=
| Returns (a : A) (ds : YAMLDatastore)
| Panics
| Blocks.
Arguments Returns {A} a ds.
Arguments Panics {A}.
Arguments Blocks {A}.

(** The state [NewYAMLDatastore] builds before it loads the directory. *)
Definition new_datastore (d : string) : YAMLDatastore :=
  {| data := ∅; files := ∅; indexes := ∅; dir := d; cache := None;
     dirty := false; txMu := false; txActive := false;
     txData := 0; heap := [empty_overlay] |}.

(** [invalidateCache]. *)
Definition invalidateCache (ds : YAMLDatastore) : YAMLDatastore := set_cache None ds.

(** ** Index maintenance *)

(** The inner loop shared by [Delete] and [updateIndexes]: every entry of
    the index whose id is [recordID] is deleted. *)
Definition drop_id (recordID : string) (index : gmap scalar string) : gmap scalar string :=
  filter (λ e, e.2 ≠ recordID) index.

(** One turn of the loop of [updateIndexes], for the index on [key]: [None]
    when [index[val] = recordID] panics. *)
Definition reindex (recordID : string) (d : value) (key : string)
    (index : gmap scalar string) : option (gmap scalar string) :=
  match getNestedValue d key with
  | Some val =>
      match as_key val with
      | Some k => Some (<[k := recordID]> (drop_id recordID index))
      | None => None
      end
  | None => Some (drop_id recordID index)
  end.

(** [updateIndexes(recordID, data)]: each index is rewritten on its own, so
    the order of the outer loop does not matter; [None] when a turn panics. *)
Definition updateIndexes (recordID : string) (d : value)
    (idxs : gmap string (gmap scalar string)) : option (gmap string (gmap scalar string)) :=
  if decide (map_Forall (λ key index, is_Some (reindex recordID d key index)) idxs)
  then Some (map_imap (reindex recordID d) idxs)
  else None.

(** ** Reads through the overlay *)

(** The map [ds.txData]; a dangling location reads as a nil map. *)
Definition overlay_of (ds : YAMLDatastore) : gmap string value :=
  match heap ds !! txData ds with
  | Some ov => ov_data ov
  | None => ∅
  end.

(** [ds.txData[id]], nil when [id] is not staged. *)
Definition staged (ds : YAMLDatastore) (id : string) : value :=
  default VNil (overlay_of ds !! id).

(** The body shared by the loops of [Merge] and [Query]: [None] when the
    record is skipped ([continue]), else the document that is used. *)
Definition layered (ds : YAMLDatastore) (id : string) (d : value) : option value :=
  if txActive ds && is_nil (staged ds id) then None
  else match overlay_of ds !! id with
       | Some txd => if txActive ds && negb (is_nil txd) then Some txd else Some d
       | None => Some d
       end.

(** The loop of [Merge] over [ds.data]. *)
Definition fresh_merge (ds : YAMLDatastore) : gmap string value :=
  map_imap (layered ds) (data ds).

(** Writing [f] into the maps at location [l]; [None] when there are none
    (assignment to an entry of a nil map). *)
Definition stage (l : nat) (f : overlay → overlay) (ds : YAMLDatastore) : option YAMLDatastore :=
  match heap ds !! l with
  | Some ov => Some (set_heap (<[l := f ov]> (heap ds)) ds)
  | None => None
  end.

Definition stage_set (recordID : string) (d : value) (path : string) (ov : overlay) : overlay :=
  {| ov_data := <[recordID := d]> (ov_data ov); ov_files := {[path]} ∪ ov_files ov |}.

Definition stage_delete (recordID : string) (ov : overlay) : overlay :=
  {| ov_data := <[recordID := VNil]> (ov_data ov); ov_files := ov_files ov |}.

(** ** CRUD *)

(** [ds.Set(recordID, data, fileID)]. *)
Definition Set_ (recordID : string) (d : value) (fileID : string)
    (ds : YAMLDatastore) : outcome (option error) :=
  if txActive ds then
    match stage (txData ds) (stage_set recordID d (shard_path (dir ds) fileID)) ds with
    | Some ds' => Returns None ds'
    | None => Panics
    end
  else
    match updateIndexes recordID d (indexes ds) with
    | Some idxs =>
        Returns None
          (set_indexes idxs
            (invalidateCache
              (set_dirty true
                (set_files ({[shard_path (dir ds) fileID]} ∪ files ds)
                  (set_data (<[recordID := d]> (data ds)) ds)))))
    | None => Panics
    end.

(** [ds.Get(recordID)]: the document (nil on a miss) and the error. *)
Definition Get (recordID : string) (ds : YAMLDatastore) : value * option error :=
  match (if txActive ds then overlay_of ds !! recordID else None) with
  | Some d => (d, None)
  | None =>
      match data ds !! recordID with
      | Some d => (d, None)
      | None => (VNil, None)
      end
  end.

(** [ds.Delete(recordID)]. *)
Definition Delete (recordID : string) (ds : YAMLDatastore) : outcome (option error) :=
  if txActive ds then
    match stage (txData ds) (stage_delete recordID) ds with
    | Some ds' => Returns None ds'
    | None => Panics
    end
  else
    match data ds !! recordID with
    | None => Returns (Some ErrNotFound) ds
    | Some _ =>
        Returns None
          (set_indexes (drop_id recordID <$> indexes ds)
            (invalidateCache
              (set_dirty true
                (set_data (delete recordID (data ds)) ds))))
    end.

(** ** Query and CreateIndex *)

(** The indexed branch of [Query]: the loop over the entries [val -> id] of
    the index.  What is stored under [id] depends on [id] only, so the
    visiting order does not matter. *)
Definition query_index (ds : YAMLDatastore) (value_ : string)
    (index : gmap scalar string) : gmap string value :=
  map_fold (λ val id result,
      if decide (Sprintf_v (Scalar val) = value_) then
        match layered ds id (default VNil (data ds !! id)) with
        | Some d => <[id := d]> result
        | None => result
        end
      else result)
    ∅ index.

(** The scanning branch of [Query]: the loop over [ds.data]. *)
Definition query_scan (ds : YAMLDatastore) (key value_ : string) : gmap string value :=
  map_imap (λ id d,
      match layered ds id d with
      | Some d' =>
          match getNestedValue d' key with
          | Some val => if decide (Sprintf_v val = value_) then Some d' else None
          | None => None
          end
      | None => None
      end)
    (data ds).

(** [ds.Query(key, value)]. *)
Definition Query (key value_ : string) (ds : YAMLDatastore)
    : gmap string value * option error :=
  match indexes ds !! key with
  | Some index => (query_index ds value_ index, None)
  | None => (query_scan ds key value_, None)
  end.

(** The loop of [CreateIndex] over [ds.data], visited in [order]; a later
    visit overwrites an earlier one with the same value.  [None] on a panic. *)
Fixpoint build_index (key : string) (order : list (string * value))
    (index : gmap scalar string) : option (gmap scalar string) :=
  match order with
  | [] => Some index
  | (id, d) :: rest =>
      match getNestedValue d key with
      | Some val =>
          match as_key val with
          | Some k => build_index key rest (<[k := id]> index)
          | None => None
          end
      | None => build_index key rest index
      end
  end.

(** [ds.CreateIndex(key)]; [order] is the order in which [range ds.data]
    visits the records. *)
Definition CreateIndex (key : string) (order : list (string * value))
    (ds : YAMLDatastore) : outcome (option error) :=
  match indexes ds !! key with
  | Some _ => Returns (Some ErrIndexExists) ds
  | None =>
      match build_index key order ∅ with
      | Some index => Returns None (set_indexes (<[key := index]> (indexes ds)) ds)
      | None => Panics
      end
  end.

(** ** Transactions *)

(** [ds.BeginTransaction()].  [txMu] is locked first and stays locked when
    the call succeeds. *)
Definition BeginTransaction (ds : YAMLDatastore)
    : outcome (option Transaction * option error) :=
  if txMu ds then Blocks
  else if txActive ds then Returns (None, Some ErrTxActive) ds
  else
    let l := length (heap ds) in
    Returns (Some (Tx l), None)
      (set_txData l
        (set_heap (heap ds ++ [empty_overlay])
          (set_txActive true (set_txMu true ds)))).

Module Transaction.

(** [tx.Set(recordID, data, fileID)]. *)
Definition Set_ (tx : Transaction) (recordID : string) (d : value) (fileID : string)
    (ds : YAMLDatastore) : outcome (option error) :=
  match stage (tx_data tx) (stage_set recordID d (shard_path (dir ds) fileID)) ds with
  | Some ds' => Returns None ds'
  | None => Panics
  end.

(** [tx.Delete(recordID)]. *)
Definition Delete (tx : Transaction) (recordID : string)
    (ds : YAMLDatastore) : outcome (option error) :=
  match stage (tx_data tx) (stage_delete recordID) ds with
  | Some ds' => Returns None ds'
  | None => Panics
  end.

(** One turn of the loop of [Commit]. *)
Definition apply_entry (ds : YAMLDatastore) (e : string * value) : option YAMLDatastore :=
  if is_nil e.2 then Some (set_data (delete e.1 (data ds)) ds)
  else
    match updateIndexes e.1 e.2 (indexes ds) with
    | Some idxs => Some (set_indexes idxs (set_data (<[e.1 := e.2]> (data ds)) ds))
    | None => None
    end.

Fixpoint apply_entries (order : list (string * value)) (ds : YAMLDatastore)
    : option YAMLDatastore :=
  match order with
  | [] => Some ds
  | e :: rest =>
      match apply_entry ds e with
      | Some ds' => apply_entries rest ds'
      | None => None
      end
  end.

(** [tx.Commit()]; [order] is the order in which [range tx.data] visits the
    staged entries.  The deferred [txMu.Unlock()] is a fatal error when the
    mutex is not held. *)
Definition Commit (tx : Transaction) (order : list (string * value))
    (ds : YAMLDatastore) : outcome (option error) :=
  match heap ds !! tx_data tx with
  | None => Panics
  | Some ov =>
      match apply_entries order ds with
      | None => Panics
      | Some ds1 =>
          let ds2 :=
            set_txActive false
              (invalidateCache
                (set_dirty true
                  (set_files (ov_files ov ∪ files ds1) ds1))) in
          if txMu ds then Returns None (set_txMu false ds2) else Panics
      end
  end.

(** [tx.Rollback()]: it unlocks [txMu] first, then gives the store fresh
    empty maps. *)
Definition Rollback (tx : Transaction) (ds : YAMLDatastore) : outcome unit :=
  if txMu ds then
    Returns tt
      (set_txData (length (heap ds))
        (set_heap (heap ds ++ [empty_overlay])
          (set_txActive false (set_txMu false ds))))
  else Panics.

End Transaction.

(** ** Merge *)

(** [ds.Merge()]. *)
Definition Merge (ds : YAMLDatastore) : outcome (gmap string value * option error) :=
  match cache ds with
  | Some cached => Returns (cached, None) ds
  | None =>
      let merged := fresh_merge ds in
      Returns (merged, None) (set_cache (Some merged) ds)
  end.

(** ** Loader *)

(** [strings.HasSuffix(s, suffix)]. *)
Definition strings_HasSuffix (s suffix : string) : bool :=
  String.prefix (String.rev suffix) (String.rev s).

(** The critical section of [readFile]: the loop over the parsed
    [fileData], visited in the order of the list.  [None] on a panic. *)
Fixpoint merge_records (records : list (string * value)) (ds : YAMLDatastore)
    : option YAMLDatastore :=
  match records with
  | [] => Some ds
  | (id, record) :: rest =>
      match updateIndexes id record (indexes ds) with
      | Some idxs =>
          merge_records rest (set_indexes idxs (set_data (<[id := record]> (data ds)) ds))
      | None => None
      end
  end.

(** [ds.readFile(path)].  [parse path] is what opening, reading and
    unmarshalling the file gives: [None] when one of them fails, else the
    entries of [fileData] in the order the merge loop visits them. *)
Definition readFile (parse : string → option (list (string * value))) (path : string)
    (ds : YAMLDatastore) : outcome (option error) :=
  match parse path with
  | None => Returns (Some (ErrIO path)) ds
  | Some records =>
      match merge_records records ds with
      | Some ds' => Returns None ds'
      | None => Panics
      end
  end.

(** The workers of [ConcurrentRead].  Each one merges under [ds.mu], so the
    merges happen one after the other, in the order in which the workers
    get the lock: [schedule].  An error of a worker is only logged. *)
Fixpoint run_workers (parse : string → option (list (string * value)))
    (schedule : list string) (ds : YAMLDatastore) : option YAMLDatastore :=
  match schedule with
  | [] => Some ds
  | path :: rest =>
      match readFile parse path ds with
      | Returns _ ds' => run_workers parse rest ds'
      | _ => None
      end
  end.

(** The files [filepath.Walk] collects from its visits [(path, isDir)]. *)
Definition yaml_files (visited : list (string * bool)) : list string :=
  (filter (λ e, negb e.2 && strings_HasSuffix e.1 ".yaml") visited).*1.

(** [ds.ConcurrentRead()].  [visited] is what [filepath.Walk] visits before
    it ends with [walk_err]; [schedule] orders the workers' merges and is a
    permutation of the files found. *)
Definition ConcurrentRead (visited : list (string * bool)) (walk_err : option error)
    (parse : string → option (list (string * value))) (schedule : list string)
    (ds : YAMLDatastore) : outcome (option error) :=
  let ds1 := set_files (list_to_set (yaml_files visited) ∪ files ds) ds in
  match walk_err with
  | Some err => Returns (Some err) ds1
  | None =>
      match run_workers parse schedule (set_data ∅ ds1) with
      | Some ds2 => Returns None ds2
      | None => Panics
      end
  end.

(** [NewYAMLDatastore(dir)], without the two background goroutines. *)
Definition NewYAMLDatastore (d : string) (visited : list (string * bool))
    (walk_err : option error) (parse : string → option (list (string * value)))
    (schedule : list string) : outcome (option error) :=
  ConcurrentRead visited walk_err parse schedule (new_datastore d).

(** ** Persister *)

(** The shard files on disk: path -> the records last written there. *)
Abbreviation disk := (gmap string (gmap string value)).

(** The file [Save] puts a record in: [records_<prefix>.yaml] when that
    file is known, else [records_default.yaml]. *)
Definition file_of (d : string) (filesCopy : gset string) (id : string) : string :=
  let filePath := shard_path d (hd "" (strings_Split id "_"%char)) in
  if decide (filePath ∈ filesCopy) then filePath else shard_path d "default".

(** One turn of the grouping loop, [fileData[filePath][id] = data]: the
    assignment panics when [fileData] has no map for [filePath]. *)
Definition group_step (d : string) (filesCopy : gset string) (id : string) (doc : value)
    (acc : option disk) : option disk :=
  match acc with
  | None => None
  | Some fileData =>
      match fileData !! file_of d filesCopy id with
      | Some records => Some (<[file_of d filesCopy id := <[id := doc]> records]> fileData)
      | None => None
      end
  end.

(** "Group records by file": [fileData] starts with an empty map for every
    known file. *)
Definition group_records (d : string) (filesCopy : gset string)
    (dataCopy : gmap string value) : option disk :=
  map_fold (group_step d filesCopy) (Some (gset_to_gmap ∅ filesCopy)) dataCopy.

(** "Write each file", in the order [order] in which [range fileData]
    visits the paths.  [io path records] is the error of [yaml.Marshal] or
    [os.WriteFile], if any.  The result is the disk, the paths written and
    the error that stopped the loop. *)
Fixpoint write_files (io : string → gmap string value → option error)
    (fileData : disk) (order : list string) (dk : disk) (written : list string)
    : disk * list string * option error :=
  match order with
  | [] => (dk, written, None)
  | path :: rest =>
      match fileData !! path with
      | None => write_files io fileData rest dk written
      | Some records =>
          if decide (size records = 0) then write_files io fileData rest dk written
          else
            match io path records with
            | Some err => (dk, written, Some err)
            | None =>
                write_files io fileData rest (<[path := records]> dk) (written ++ [path])
            end
      end
  end.

(** [ds.Save()]: the outcome, the disk afterwards and the paths written. *)
Definition Save (io : string → gmap string value → option error) (order : list string)
    (ds : YAMLDatastore) (dk : disk) : outcome (option error) * disk * list string :=
  if negb (dirty ds) then (Returns None ds, dk, [])
  else
    match group_records (dir ds) (files ds) (data ds) with
    | None => (Panics, dk, [])
    | Some fileData =>
        match write_files io fileData order dk [] with
        | (dk', written, Some err) => (Returns (Some err) ds, dk', written)
        | (dk', written, None) => (Returns None (set_dirty false ds), dk', written)
        end
    end.

(** ** Sequences of calls *)

(** A call is a function from the state to an outcome; [bind] runs a second
    call in the state the first one returned. *)
Definition call (A : Type) : Type := YAMLDatastore → outcome A.

Definition ret {A : Type} (a : A) : call A := λ ds, Returns a ds.

Definition bind {A B : Type} (c : call A) (k : A → call B) : call B :=
  λ ds, match c ds with
        | Returns a ds' => k a ds'
        | Panics => Panics
        | Blocks => Blocks
        end.

Notation "'call!' x := c 'in' k" := (bind c (λ x, k))
  (at level 10, x name, c at level 100, k at level 200, only parsing).
Notation "c ;;; k" := (bind c (λ _, k))
  (at level 100, k at level 200, right associativity, only parsing).

(** The state a call returns, if it returns. *)
Definition result_state {A : Type} (o : outcome A) : option YAMLDatastore :=
  match o with
  | Returns _ ds => Some ds
  | _ => None
  end.




(** ** Reachable states *)

(** The states the program can be in between two calls: what
    [NewYAMLDatastore] returns, followed by any calls of the interface.  The
    visiting orders are permutations of the maps visited; a handle refers to
    maps that were allocated. *)
Inductive reachable : YAMLDatastore → Prop :=
| reach_new d visited parse schedule ds :
    schedule ≡ₚ yaml_files visited →
    NewYAMLDatastore d visited None parse schedule = Returns None ds →
    reachable ds
| reach_Set ds recordID doc fileID r ds' :
    reachable ds → Set_ recordID doc fileID ds = Returns r ds' → reachable ds'
| reach_Delete ds recordID r ds' :
    reachable ds → Delete recordID ds = Returns r ds' → reachable ds'
| reach_CreateIndex ds key order r ds' :
    reachable ds → order ≡ₚ map_to_list (data ds) →
    CreateIndex key order ds = Returns r ds' → reachable ds'
| reach_Begin ds r ds' :
    reachable ds → BeginTransaction ds = Returns r ds' → reachable ds'
| reach_tx_Set ds tx recordID doc fileID r ds' :
    reachable ds → Transaction.Set_ tx recordID doc fileID ds = Returns r ds' →
    reachable ds'
| reach_tx_Delete ds tx recordID r ds' :
    reachable ds → Transaction.Delete tx recordID ds = Returns r ds' → reachable ds'
| reach_Commit ds tx ov order r ds' :
    reachable ds → heap ds !! tx_data tx = Some ov →
    order ≡ₚ map_to_list (ov_data ov) →
    Transaction.Commit tx order ds = Returns r ds' → reachable ds'
| reach_Rollback ds tx r ds' :
    reachable ds → Transaction.Rollback tx ds = Returns r ds' → reachable ds'
| reach_Merge ds r ds' :
    reachable ds → Merge ds = Returns r ds' → reachable ds'
| reach_Save ds io order dk r ds' dk' written :
    reachable ds → Save io order ds dk = (Returns r ds', dk', written) → reachable ds'.

(** A read that leaves the state alone, as a call. *)
Definition reading {A : Type} (f : YAMLDatastore → A) : call A :=
  λ ds, Returns (f ds) ds.

(** ** Properties of states *)



(** A node through which [getNestedValue] can go on. *)
Definition is_mapping (v : value) : bool :=
  match v with
  | Map _ | IMap _ => true
  | _ => false
  end.

(** No index has a dangling entry: every entry points at a record of the
    committed store whose field at the indexed path is present. *)
Definition no_dangling (ds : YAMLDatastore) : Prop :=
  ∀ key index val id,
    indexes ds !! key = Some index → index !! val = Some id →
    ∃ d, data ds !! id = Some d ∧ is_Some (getNestedValue d key).

(** While a transaction is open [txMu] is held. *)
Definition gate_held (ds : YAMLDatastore) : Prop :=
  txActive ds = true → txMu ds = true.

(** [ds.txData] refers to maps that exist. *)
Definition overlay_allocated (ds : YAMLDatastore) : Prop :=
  txData ds < length (heap ds).







(** No record id is defined by two different files of the schedule. *)
Definition disjoint_ids (parse : string → option (list (string * value)))
    (schedule : list string) : Prop :=
  ∀ p q rp rq id,
    p ∈ schedule → q ∈ schedule → p ≠ q →
    parse p = Some rp → parse q = Some rq →
    id ∈ rp.*1 → id ∈ rq.*1 → False.

(** ** Scenarios *)

Definition dept (d : string) : value := Map [("dept", Scalar (Str d))].

Definition named (n : string) : value := Map [("name", Scalar (Str n))].


(** An index on "dept", one record, and a transaction that deletes it. *)
Definition tombstone_commit : call (option error) :=
  CreateIndex "dept" [] ;;;
  Set_ "u1" (dept "eng") "u1" ;;;
  call! r := BeginTransaction in
  match r.1 with
  | Some tx => Transaction.Delete tx "u1" ;;; Transaction.Commit tx [("u1", VNil)]
  | None => ret None
  end.

(** A merge before a transaction, a staged write, and a merge inside it. *)
Definition merge_in_transaction : call (gmap string value * option error) :=
  Set_ "u1" (named "Ann") "u1" ;;;
  Merge ;;;
  call! r := BeginTransaction in
  match r.1 with
  | Some tx => Transaction.Set_ tx "u1" (named "Bo") "u1" ;;; Merge
  | None => ret (∅, None)
  end.

(** A merge inside a transaction that is then rolled back. *)
Definition merge_after_rollback : call (gmap string value * option error) :=
  Set_ "u1" (named "Ann") "u1" ;;;
  call! r := BeginTransaction in
  match r.1 with
  | Some tx =>
      Transaction.Set_ tx "u1" (named "Bo") "u1" ;;;
      Merge ;;;
      Transaction.Rollback tx ;;;
      Merge
  | None => ret (∅, None)
  end.

(** A record whose shard hint is not the prefix of its id. *)
Definition foreign_hint : call (option error) :=
  Set_ "a_1" (dept "eng") "x".

(** Two shard files that both define "u1". *)
Definition two_files (path : string) : option (list (string * value)) :=
  if decide (path = "db/records_a.yaml") then Some [("u1", named "Ann")]
  else if decide (path = "db/records_b.yaml") then Some [("u1", named "Bo")]
  else None.

(** Two shard files with different ids. *)
Definition two_disjoint_files (path : string) : option (list (string * value)) :=
  if decide (path = "db/records_a.yaml") then Some [("u1", named "Ann")]
  else if decide (path = "db/records_b.yaml") then Some [("u2", named "Bo")]
  else None.


Definition two_files_visited : list (string * bool) :=
  [("db", true); ("db/records_a.yaml", false); ("db/records_b.yaml", false)].

(** ** What the loader does to [ds.data] *)

(** The assignments [ds.data[id] = record] of one file, in order. *)
Definition merge_data (records : list (string * value)) (m : gmap string value)
    : gmap string value :=
  foldl (λ acc e, <[e.1 := e.2]> acc) m records.

(** The same for the files of a schedule; a file that fails is skipped. *)
Definition load_data (parse : string → option (list (string * value)))
    (schedule : list string) (m : gmap string value) : gmap string value :=
  foldl (λ acc path, match parse path with
                     | Some records => merge_data records acc
                     | None => acc
                     end) m schedule.

(** ** More scenarios *)

(** The state a sequence of calls returns from the empty store "db" (the
    empty store itself if the sequence does not return). *)
Definition after {A : Type} (c : call A) : YAMLDatastore :=
  default (new_datastore "db") (result_state (c (new_datastore "db"))).

(** Two records, and an open transaction that replaces "u1" and deletes "u2". *)
Definition staged_db : YAMLDatastore :=
  after (Set_ "u1" (named "Ann") "u1" ;;; Set_ "u2" (named "Bo") "u2" ;;;
         BeginTransaction ;;;
         Transaction.Set_ (Tx 1) "u1" (named "Cy") "u1" ;;;
         Transaction.Delete (Tx 1) "u2").

Definition staged_overlay : overlay :=
  {| ov_data := <["u2" := VNil]> (<["u1" := named "Cy"]> ∅);
     ov_files := {["db/records_u1.yaml"]} |}.

(** ** What Save writes *)

(** The records [Save] puts in the file [path]. *)
Definition group_of (ds : YAMLDatastore) (path : string) : gmap string value :=
  filter (λ e, file_of (dir ds) (files ds) e.1 = path) (data ds).

(** Every record has a known file to go to: the file of its id prefix, or
    the default file. *)
Definition all_assigned (ds : YAMLDatastore) : Prop :=
  ∀ id d, data ds !! id = Some d → file_of (dir ds) (files ds) id ∈ files ds.

(** Reading back what is on disk: the records of a file, as [readFile]
    parses them. *)
Definition parse_disk (dk : disk) (path : string) : option (list (string * value)) :=
  map_to_list <$> dk !! path.

(** Record "u1" was set and then deleted; the disk still has the file
    written by a save in between. *)
Definition deleted_db : YAMLDatastore :=
  after (Set_ "u1" (named "Ann") "u1" ;;; Delete "u1").

Definition old_disk : disk :=
  {[ "db/records_u1.yaml" := {[ "u1" := named "Ann" ]} ]}.

(** ** The command line *)

(** The character classes of the two regular expressions of [main.go]. *)
Definition is_alnum (c : Ascii.ascii) : bool :=
  let n := Ascii.nat_of_ascii c in
  (Nat.leb 48 n && Nat.leb n 57) || (Nat.leb 65 n && Nat.leb n 90)
  || (Nat.leb 97 n && Nat.leb n 122).

(** [isValidID]: the id matches [^[a-zA-Z0-9_]+$]. *)
Definition isValidID (id : string) : bool :=
  match id with
  | EmptyString => false
  | _ => forallb (λ c, is_alnum c || bool_decide (c = "_"%char)) (String.list_ascii_of_string id)
  end.

(** The file id the [set] command and the transaction shell derive from a
    record id: [strings.Split(recordID, "_")[0]]. *)
Definition file_id (recordID : string) : string :=
  hd "" (strings_Split recordID "_"%char).

(** The [set] command, for a document that parsed: it refuses an invalid
    id, else calls [ds.Set] with the derived file id.  The result tells
    whether the record was set. *)
Definition cmd_set (recordID : string) (d : value) : call bool :=
  if isValidID recordID then
    bind (Set_ recordID d (file_id recordID)) (λ _, ret true)
  else ret false.

(** * Proofs *)

(** ** Generic facts *)

Ltac unfold_calls :=
  unfold Set_, Delete, CreateIndex, BeginTransaction, Transaction.Set_,
    Transaction.Delete, Transaction.Commit, Transaction.Rollback, Merge, Save,
    readFile, stage, invalidateCache in *.

(** Case analysis on a call that returned. *)
Ltac returned H :=
  unfold_calls; repeat case_match; simplify_eq; simpl in *.

Lemma apply_entries_frame order : ∀ ds ds',
  Transaction.apply_entries order ds = Some ds' →
  txMu ds' = txMu ds ∧ txActive ds' = txActive ds ∧ txData ds' = txData ds ∧
  heap ds' = heap ds ∧ cache ds' = cache ds ∧ dirty ds' = dirty ds ∧
  files ds' = files ds ∧ dir ds' = dir ds.
Proof.
  induction order as [|e order IH]; intros ds ds' H; simpl in H.
  - by simplify_eq.
  - destruct (Transaction.apply_entry ds e) as [ds1|] eqn:He; [|done].
    apply IH in H. unfold Transaction.apply_entry in He.
    repeat case_match; simplify_eq; simpl in *; done.
Qed.

Lemma merge_records_frame records : ∀ ds ds',
  merge_records records ds = Some ds' →
  txMu ds' = txMu ds ∧ txActive ds' = txActive ds ∧ txData ds' = txData ds ∧
  heap ds' = heap ds ∧ cache ds' = cache ds ∧ dirty ds' = dirty ds ∧
  files ds' = files ds ∧ dir ds' = dir ds.
Proof.
  induction records as [|[id record] records IH]; intros ds ds' H; simpl in H.
  - by simplify_eq.
  - case_match; [|done]. apply IH in H. simpl in H. done.
Qed.

Lemma run_workers_frame parse schedule : ∀ ds ds',
  run_workers parse schedule ds = Some ds' →
  txMu ds' = txMu ds ∧ txActive ds' = txActive ds ∧ txData ds' = txData ds ∧
  heap ds' = heap ds ∧ cache ds' = cache ds ∧ dirty ds' = dirty ds ∧
  files ds' = files ds ∧ dir ds' = dir ds.
Proof.
  induction schedule as [|path schedule IH]; intros ds ds' H; simpl in H.
  - by simplify_eq.
  - destruct (readFile parse path ds) as [r ds1| |] eqn:Hr; [|done..].
    apply IH in H. unfold readFile in Hr.
    destruct (parse path) as [records|]; [|by simplify_eq].
    destruct (merge_records records ds) as [ds2|] eqn:Hm; [|done].
    simplify_eq. apply merge_records_frame in Hm. intuition congruence.
Qed.

(** ** Invariants of the reachable states *)

Lemma reachable_new d : reachable (new_datastore d).
Proof.
  apply (reach_new d [] (λ _, None) []); [done|].
  reflexivity.
Qed.

Lemma reachable_gate_held ds : reachable ds → gate_held ds.
Proof.
  unfold gate_held.
  induction 1 as [d visited parse schedule ds Hp H
    | ds recordID doc fileID r ds' _ IH H | ds recordID r ds' _ IH H
    | ds key order r ds' _ IH Hp H | ds r ds' _ IH H
    | ds tx recordID doc fileID r ds' _ IH H | ds tx recordID r ds' _ IH H
    | ds tx ov order r ds' _ IH Hov Hp H | ds tx r ds' _ IH H | ds r ds' _ IH H
    | ds io order dk r ds' dk' written _ IH H].
  - unfold NewYAMLDatastore, ConcurrentRead in H.
    destruct (run_workers _ _ _) as [ds2|] eqn:Hw; [|done]. simplify_eq.
    apply run_workers_frame in Hw. simpl in Hw. intuition congruence.
  - returned H; intuition congruence.
  - returned H; intuition congruence.
  - returned H; intuition congruence.
  - returned H; intuition congruence.
  - returned H; intuition congruence.
  - returned H; intuition congruence.
  - unfold Transaction.Commit in H. rewrite Hov in H.
    destruct (Transaction.apply_entries order ds) as [ds1|] eqn:He; [|done].
    destruct (txMu ds); simplify_eq. simpl. done.
  - returned H; intuition congruence.
  - returned H; intuition congruence.
  - returned H; intuition congruence.
Qed.

Lemma reachable_overlay_allocated ds : reachable ds → overlay_allocated ds.
Proof.
  unfold overlay_allocated.
  induction 1 as [d visited parse schedule ds Hp H
    | ds recordID doc fileID r ds' _ IH H | ds recordID r ds' _ IH H
    | ds key order r ds' _ IH Hp H | ds r ds' _ IH H
    | ds tx recordID doc fileID r ds' _ IH H | ds tx recordID r ds' _ IH H
    | ds tx ov order r ds' _ IH Hov Hp H | ds tx r ds' _ IH H | ds r ds' _ IH H
    | ds io order dk r ds' dk' written _ IH H].
  - unfold NewYAMLDatastore, ConcurrentRead in H.
    destruct (run_workers _ _ _) as [ds2|] eqn:Hw; [|done]. simplify_eq.
    apply run_workers_frame in Hw. simpl in Hw.
    destruct Hw as (_ & _ & -> & -> & _). simpl. lia.
  - returned H; rewrite ?length_insert; done.
  - returned H; rewrite ?length_insert; done.
  - returned H; done.
  - returned H; rewrite ?length_app; simpl; lia.
  - returned H; rewrite ?length_insert; done.
  - returned H; rewrite ?length_insert; done.
  - unfold Transaction.Commit in H. rewrite Hov in H.
    destruct (Transaction.apply_entries order ds) as [ds1|] eqn:He; [|done].
    apply apply_entries_frame in He. destruct He as (_ & _ & Hd & Hh & _).
    destruct (txMu ds); simplify_eq. simpl. by rewrite Hd, Hh.
  - returned H; rewrite ?length_app; simpl; lia.
  - returned H; done.
  - returned H; done.
Qed.

(** The store right after [BeginTransaction] on an empty store. *)
Lemma open_db_reachable :
  ∃ ds, BeginTransaction (new_datastore "db") = Returns (Some (Tx 1), None) ds ∧
        reachable ds ∧ txActive ds = true.
Proof.
  eexists. split; [reflexivity|]. split; [|reflexivity].
  eapply reach_Begin; [apply (reachable_new "db")|reflexivity].
Qed.

(** ** C4: BeginTransaction while a transaction is open *)

(** C4.  In every reachable state in which a transaction is open, a call of
    [BeginTransaction] does not return the error "transaction already
    active": it waits for [txMu], which the open transaction holds until its
    [Commit] or [Rollback]. *)
Theorem BeginTransaction_blocks_while_open (ds : YAMLDatastore) :
  reachable ds → txActive ds = true → BeginTransaction ds = Blocks.
Proof.
  intros Hr Ha. apply reachable_gate_held in Hr.
  unfold BeginTransaction. by rewrite (Hr Ha).
Qed.

Lemma BeginTransaction_blocks_while_open_witness :
  ∃ ds, BeginTransaction (new_datastore "db") = Returns (Some (Tx 1), None) ds ∧
        BeginTransaction ds = Blocks.
Proof.
  destruct open_db_reachable as (ds & Hb & Hr & Ha).
  exists ds. split; [exact Hb|].
  exact (BeginTransaction_blocks_while_open ds Hr Ha).
Defined.

(** After [Commit] or [Rollback] the gate is free again: the next
    [BeginTransaction] returns a handle on a new, empty overlay. *)
Lemma BeginTransaction_after_end (ds ds' : YAMLDatastore) (tx : Transaction)
    (order : list (string * value)) :
  (∃ r, Transaction.Commit tx order ds = Returns r ds') ∨
  Transaction.Rollback tx ds = Returns tt ds' →
  ∃ tx' ds'', BeginTransaction ds' = Returns (Some tx', None) ds'' ∧
    heap ds'' !! tx_data tx' = Some empty_overlay ∧
    txData ds'' = tx_data tx' ∧ txActive ds'' = true.
Proof.
  intros H.
  assert (txMu ds' = false ∧ txActive ds' = false) as [Hm Ha].
  { destruct H as [[r H]|H]; returned H; done. }
  unfold BeginTransaction. rewrite Hm, Ha.
  eexists _, _. split; [reflexivity|]. simpl.
  split; [|done]. apply list_lookup_middle. done.
Qed.

(** ** C5: Delete of an id that is not in the store *)

(** C5 (counterexample).  In the reachable state right after
    [BeginTransaction], [Delete] of an id that is nowhere in the store
    returns no error. *)
Lemma Delete_absent_succeeds_in_transaction :
  ∃ ds ds', BeginTransaction (new_datastore "db") = Returns (Some (Tx 1), None) ds ∧
    reachable ds ∧ data ds !! "ghost" = None ∧
    Delete "ghost" ds = Returns None ds'.
Proof.
  destruct open_db_reachable as (ds & Hb & Hr & Ha).
  exists ds. injection Hb as <-. eexists. repeat split. exact Hr.
Qed.

(** C5 (amended).  When no transaction is open, [Delete] of an id that is
    not in the store returns the error "record not found" and leaves the
    whole state as it was: committed records, indexes, merge cache and
    dirty flag. *)
Theorem Delete_absent_not_found (ds : YAMLDatastore) (recordID : string) :
  txActive ds = false → data ds !! recordID = None →
  Delete recordID ds = Returns (Some ErrNotFound) ds.
Proof.
  intros Ha Hd. unfold Delete. by rewrite Ha, Hd.
Qed.

Lemma Delete_absent_not_found_witness :
  Delete "ghost" (new_datastore "db") = Returns (Some ErrNotFound) (new_datastore "db").
Proof.
  apply (Delete_absent_not_found (new_datastore "db") "ghost"); reflexivity.
Defined.

(** ** C7: Get on a miss *)

Lemma Get_never_fails (ds : YAMLDatastore) (recordID : string) :
  (Get recordID ds).2 = None.
Proof. unfold Get. repeat case_match; done. Qed.

(** C7 (counterexample).  A record stored with a null document and an id
    that is not in the store give the same result. *)
Lemma Get_null_like_absent :
  ∃ ds, Set_ "u1" VNil "u1" (new_datastore "db") = Returns None ds ∧
    data ds !! "u1" = Some VNil ∧
    data (new_datastore "db") !! "u1" = None ∧
    Get "u1" ds = Get "u1" (new_datastore "db").
Proof.
  eexists. split; [reflexivity|]. by vm_compute.
Qed.

(** C7 (amended).  With no transaction open, [Get] returns no error; it
    returns the stored document of a present id and nil on a miss.  So a
    result that is not nil tells that the id is present, with that
    document; a nil result is what an absent id and a present id with a
    null document both give. *)
Theorem Get_miss_is_nil (ds : YAMLDatastore) (recordID : string) :
  txActive ds = false →
  Get recordID ds = (default VNil (data ds !! recordID), None) ∧
  (is_nil (Get recordID ds).1 = false ↔
     ∃ d, data ds !! recordID = Some d ∧ is_nil d = false).
Proof.
  intros Ha. unfold Get. rewrite Ha.
  destruct (data ds !! recordID) as [d|]; simpl.
  - split; [done|]. split; [eauto|]. by intros (? & [= <-] & ?).
  - split; [done|]. split; [done|]. by intros (? & ? & _).
Qed.

Lemma Get_miss_is_nil_witness :
  Get "u1" (new_datastore "db") = (VNil, None) ∧
  (is_nil (Get "u1" (new_datastore "db")).1 = false ↔
     ∃ d, data (new_datastore "db") !! "u1" = Some d ∧ is_nil d = false).
Proof.
  apply (Get_miss_is_nil (new_datastore "db") "u1"). reflexivity.
Defined.

(** ** C10: store calls while a transaction is open *)

Lemma overlay_of_stage (ds : YAMLDatastore) (f : overlay → overlay) (ov : overlay) :
  heap ds !! txData ds = Some ov →
  overlay_of (set_heap (<[txData ds := f ov]> (heap ds)) ds) = ov_data (f ov).
Proof.
  intros H. unfold overlay_of; simpl.
  rewrite list_lookup_insert_eq; [done|]. by eapply lookup_lt_Some.
Qed.

(** C10.  In a reachable state with a transaction open, [Set] on the store
    returns no error and only adds the document to the overlay; [Delete] on
    the store returns no error, whether the id exists or not, and only adds
    a tombstone to the overlay; committed records, indexes, dirty flag and
    merge cache stay as they were.  [Get] returns what the overlay holds for
    a staged id. *)
Theorem store_calls_go_to_overlay (ds : YAMLDatastore) (recordID : string)
    (d : value) (fileID : string) :
  reachable ds → txActive ds = true →
  (∃ ds', Set_ recordID d fileID ds = Returns None ds' ∧
     overlay_of ds' = <[recordID := d]> (overlay_of ds) ∧
     data ds' = data ds ∧ indexes ds' = indexes ds ∧
     dirty ds' = dirty ds ∧ cache ds' = cache ds) ∧
  (∃ ds', Delete recordID ds = Returns None ds' ∧
     overlay_of ds' = <[recordID := VNil]> (overlay_of ds) ∧
     data ds' = data ds ∧ indexes ds' = indexes ds ∧
     dirty ds' = dirty ds ∧ cache ds' = cache ds) ∧
  (∀ v, overlay_of ds !! recordID = Some v → Get recordID ds = (v, None)).
Proof.
  intros Hr Ha. apply reachable_overlay_allocated in Hr.
  destruct (lookup_lt_is_Some_2 _ _ Hr) as [ov Hov].
  assert (overlay_of ds = ov_data ov) as Hof by (unfold overlay_of; by rewrite Hov).
  split; [|split].
  - unfold Set_, stage. rewrite Ha, Hov. eexists. split; [reflexivity|].
    rewrite (overlay_of_stage _ _ _ Hov), Hof. done.
  - unfold Delete, stage. rewrite Ha, Hov. eexists. split; [reflexivity|].
    rewrite (overlay_of_stage _ _ _ Hov), Hof. done.
  - intros v Hv. unfold Get. by rewrite Ha, Hv.
Qed.

Lemma store_calls_go_to_overlay_witness :
  ∃ ds, BeginTransaction (new_datastore "db") = Returns (Some (Tx 1), None) ds ∧
    ∃ ds', Delete "ghost" ds = Returns None ds' ∧
      overlay_of ds' = <[ "ghost" := VNil ]> (overlay_of ds) ∧
      data ds' = data ds ∧ indexes ds' = indexes ds ∧
      dirty ds' = dirty ds ∧ cache ds' = cache ds.
Proof.
  destruct open_db_reachable as (ds & Hb & Hr & Ha).
  exists ds. split; [exact Hb|].
  exact (proj1 (proj2 (store_calls_go_to_overlay ds "ghost" VNil "" Hr Ha))).
Defined.

(** ** C2: index entries after a commit *)

(** C2.  [Commit] applies a tombstone with [delete(tx.ds.data, id)] alone:
    with an index on "dept" and the record "u1" deleted by a transaction,
    the committed store has lost "u1" and the index still maps "eng" to it,
    so [Query] through the index returns "u1" with a nil document. *)
Theorem Commit_tombstone_leaves_index_entry :
  ∃ ds index,
    tombstone_commit (new_datastore "db") = Returns None ds ∧
    data ds !! "u1" = None ∧
    indexes ds !! "dept" = Some index ∧ index !! Str "eng" = Some "u1" ∧
    (Query "dept" "eng" ds).1 !! "u1" = Some VNil ∧
    ¬ no_dangling ds.
Proof.
  eexists _, {[ Str "eng" := "u1" ]}. split; [by vm_compute|].
  split; [by vm_compute|]. split; [by vm_compute|].
  split; [by vm_compute|]. split; [by vm_compute|].
  intros Hno.
  destruct (Hno "dept" {[ Str "eng" := "u1" ]} (Str "eng") "u1") as (d & Hd & _).
  - by vm_compute.
  - by vm_compute.
  - by vm_compute in Hd.
Qed.


(** ** C3: the merge cache and the overlay *)

(** C3.  [Merge] looks at the cache before anything else, and neither a
    staged write nor [Rollback] clears the cache.  First scenario: the view
    cached before the transaction is returned inside it, although a fresh
    merge sees the staged document.  Second scenario: the view cached
    inside the transaction is returned after [Rollback], although the
    committed document is the old one. *)
Theorem Merge_serves_stale_cache :
  (∃ merged ds,
     merge_in_transaction (new_datastore "db") = Returns (merged, None) ds ∧
     txActive ds = true ∧ cache ds = Some merged ∧
     merged !! "u1" = Some (named "Ann") ∧
     fresh_merge ds !! "u1" = Some (named "Bo")) ∧
  (∃ merged ds,
     merge_after_rollback (new_datastore "db") = Returns (merged, None) ds ∧
     txActive ds = false ∧ cache ds = Some merged ∧
     merged !! "u1" = Some (named "Bo") ∧
     data ds !! "u1" = Some (named "Ann") ∧
     fresh_merge ds !! "u1" = Some (named "Ann")).
Proof.
  split; eexists _, _; (split; [by vm_compute|]); repeat split; by vm_compute.
Qed.

(** ** C6: Save *)

(** C6.  A record whose id prefix names no known shard file is sent to
    "records_default.yaml"; when that file is not known either, [fileData]
    has no map for it and the grouping loop panics.  Here the store is
    dirty, and [Save] panics before any write, whatever the disk does. *)
Theorem Save_panics_without_default_shard :
  ∃ ds, foreign_hint (new_datastore "db") = Returns None ds ∧
    dirty ds = true ∧
    elements (files ds) = ["db/records_x.yaml"] ∧
    ∀ io order dk, Save io order ds dk = (Panics, dk, []).
Proof.
  eexists. split; [by vm_compute|]. split; [by vm_compute|].
  split; [by vm_compute|].
  intros io order dk. unfold Save.
  match goal with
  | |- context [group_records ?a ?b ?c] =>
      assert (group_records a b c = None) as -> by (by vm_compute)
  end.
  by vm_compute.
Qed.

(** What [Save] does when no panic is in the way. *)
Lemma Save_clean_is_noop io order (ds : YAMLDatastore) (dk : disk) :
  dirty ds = false → Save io order ds dk = (Returns None ds, dk, []).
Proof. intros H. unfold Save. by rewrite H. Qed.

Lemma write_files_error io fileData order : ∀ dk written dk' written' err,
  write_files io fileData order dk written = (dk', written', Some err) →
  ∃ path records, fileData !! path = Some records ∧ io path records = Some err.
Proof.
  induction order as [|path order IH]; intros dk written dk' written' err H;
    simpl in H; [done|].
  repeat case_match; simplify_eq; eauto.
Qed.

Lemma write_files_ok io fileData order : ∀ dk written dk' written',
  write_files io fileData order dk written = (dk', written', None) →
  ∀ path records, path ∈ order → fileData !! path = Some records →
    size records ≠ 0 → io path records = None ∧ dk' !! path = Some records.
Proof.
  induction order as [|p order IH]; intros dk written dk' written' H path records Hin Hf Hs;
    simpl in H; [by apply elem_of_nil in Hin|].
  destruct (decide (path ∈ order)) as [Hin'|Hin'].
  { repeat case_match; simplify_eq; eauto. }
  apply elem_of_cons in Hin as [->|?]; [|done].
  rewrite Hf in H. case_match; [done|]. case_match; [done|].
  split; [done|].
  assert (∀ dk0 w0 dk1 w1, write_files io fileData order dk0 w0 = (dk1, w1, None) →
          dk0 !! p = Some records → dk1 !! p = Some records) as Hkeep.
  { clear -Hin'. induction order as [|q order IH]; intros dk0 w0 dk1 w1 H Hp; simpl in H.
    - by simplify_eq.
    - apply not_elem_of_cons in Hin' as [Hne Hin'].
      repeat case_match; simplify_eq; eauto.
      eapply IH; [done..|]. by rewrite lookup_insert_ne. }
  eapply Hkeep; [done|]. apply lookup_insert_eq.
Qed.

(** The dirty flag is cleared only when every write succeeded, and an error
    of a write is returned with the flag still set. *)
Lemma Save_dirty_flag io order (ds ds' : YAMLDatastore) (dk dk' : disk)
    (written : list string) (r : option error) :
  dirty ds = true →
  Save io order ds dk = (Returns r ds', dk', written) →
  match r with
  | Some err =>
      ds' = ds ∧
      ∃ fileData path records,
        group_records (dir ds) (files ds) (data ds) = Some fileData ∧
        fileData !! path = Some records ∧ io path records = Some err
  | None =>
      ds' = set_dirty false ds ∧
      ∃ fileData,
        group_records (dir ds) (files ds) (data ds) = Some fileData ∧
        ∀ path records, path ∈ order → fileData !! path = Some records →
          size records ≠ 0 → io path records = None ∧ dk' !! path = Some records
  end.
Proof.
  intros Hd H. unfold Save in H. rewrite Hd in H. simpl in H.
  destruct (group_records _ _ _) as [fileData|]; [|done].
  destruct (write_files io fileData order dk []) as [[dk1 w1] [err|]] eqn:Hw;
    simplify_eq.
  - split; [done|]. apply write_files_error in Hw as (path & records & ? & ?).
    eauto 6.
  - split; [done|]. exists fileData. split; [done|].
    eapply write_files_ok. done.
Qed.

(** ** C9: the loader and duplicate ids *)

Lemma updateIndexes_empty (recordID : string) (d : value) :
  updateIndexes recordID d ∅ = Some ∅.
Proof.
  unfold updateIndexes. rewrite decide_True by apply map_Forall_empty.
  by rewrite map_imap_empty.
Qed.

Lemma merge_records_no_index records : ∀ ds,
  indexes ds = ∅ →
  merge_records records ds = Some (set_data (merge_data records (data ds)) ds).
Proof.
  induction records as [|[id record] records IH]; intros ds Hi; simpl.
  - by destruct ds.
  - rewrite Hi, updateIndexes_empty. rewrite IH by done.
    destruct ds; simpl in *; by subst.
Qed.

Lemma run_workers_no_index parse schedule : ∀ ds,
  indexes ds = ∅ →
  run_workers parse schedule ds = Some (set_data (load_data parse schedule (data ds)) ds).
Proof.
  induction schedule as [|path schedule IH]; intros ds Hi; simpl.
  - by destruct ds.
  - unfold readFile. destruct (parse path) as [records|].
    + rewrite merge_records_no_index by done. rewrite IH by done. done.
    + rewrite IH by done. done.
Qed.

Lemma merge_data_lookup_notin records : ∀ m id,
  id ∉ records.*1 → merge_data records m !! id = m !! id.
Proof.
  induction records as [|e records IH]; intros m id Hid; [done|].
  rewrite fmap_cons in Hid. apply not_elem_of_cons in Hid as [Hne Hid].
  unfold merge_data in *. simpl. rewrite IH by done. by rewrite lookup_insert_ne.
Qed.

Lemma merge_data_lookup_in records : ∀ m m' id,
  id ∈ records.*1 → merge_data records m !! id = merge_data records m' !! id.
Proof.
  induction records as [|e records IH]; intros m m' id Hid.
  { by apply elem_of_nil in Hid. }
  change (merge_data records (<[e.1 := e.2]> m) !! id
          = merge_data records (<[e.1 := e.2]> m') !! id).
  destruct (decide (id ∈ records.*1)) as [Hin|Hnin]; [by apply IH|].
  rewrite !merge_data_lookup_notin by done.
  rewrite fmap_cons in Hid. apply elem_of_cons in Hid as [->|?]; [|done].
  by rewrite !lookup_insert_eq.
Qed.

Lemma merge_data_comm (r1 r2 : list (string * value)) (m : gmap string value) :
  (∀ id, id ∈ r1.*1 → id ∈ r2.*1 → False) →
  merge_data r1 (merge_data r2 m) = merge_data r2 (merge_data r1 m).
Proof.
  intros Hdisj. apply map_eq. intros id.
  destruct (decide (id ∈ r1.*1)) as [H1|H1], (decide (id ∈ r2.*1)) as [H2|H2].
  - destruct (Hdisj id H1 H2).
  - rewrite (merge_data_lookup_in r1 _ m) by done.
    by rewrite (merge_data_lookup_notin r2).
  - rewrite (merge_data_lookup_notin r1) by done.
    by apply merge_data_lookup_in.
  - by rewrite !merge_data_lookup_notin.
Qed.

Lemma disjoint_ids_perm parse (s1 s2 : list string) :
  s1 ≡ₚ s2 → disjoint_ids parse s1 → disjoint_ids parse s2.
Proof.
  intros Hp Hd p q rp rq id Hp1 Hq1. rewrite <-Hp in Hp1, Hq1. by eapply Hd.
Qed.

Lemma load_data_perm parse (s1 s2 : list string) :
  s1 ≡ₚ s2 → disjoint_ids parse s1 →
  ∀ m, load_data parse s1 m = load_data parse s2 m.
Proof.
  induction 1 as [|x l l' Hp IH|x y l|l l' l'' Hp1 IH1 Hp2 IH2]; intros Hd m.
  - done.
  - unfold load_data in *. simpl. apply IH.
    intros p q rp rq id Hp1 Hq1. apply Hd; by apply list_elem_of_further.
  - unfold load_data. simpl. f_equal.
    destruct (decide (x = y)) as [->|Hne]; [done|].
    destruct (parse x) as [rx|] eqn:Hx, (parse y) as [ry|] eqn:Hy; try done.
    apply merge_data_comm. intros id Hix Hiy.
    eapply (Hd x y rx ry id); try done.
    + apply list_elem_of_further, list_elem_of_here.
    + apply list_elem_of_here.
  - rewrite IH1 by done. apply IH2. by eapply disjoint_ids_perm.
Qed.

(** C9 (counterexample).  Two shard files define "u1"; the two orders in
    which their workers can merge give two different stores. *)
Lemma load_depends_on_merge_order :
  ["db/records_a.yaml"; "db/records_b.yaml"] ≡ₚ yaml_files two_files_visited ∧
  ["db/records_b.yaml"; "db/records_a.yaml"] ≡ₚ yaml_files two_files_visited ∧
  ∃ ds1 ds2,
    NewYAMLDatastore "db" two_files_visited None two_files
      ["db/records_a.yaml"; "db/records_b.yaml"] = Returns None ds1 ∧
    NewYAMLDatastore "db" two_files_visited None two_files
      ["db/records_b.yaml"; "db/records_a.yaml"] = Returns None ds2 ∧
    data ds1 !! "u1" = Some (named "Bo") ∧
    data ds2 !! "u1" = Some (named "Ann").
Proof.
  split; [by vm_compute|]. split; [vm_compute; apply perm_swap|].
  eexists _, _. split; [by vm_compute|]. split; [by vm_compute|].
  split; by vm_compute.
Qed.

(** C9 (amended).  When no record id is defined by two files, loading a
    directory gives the same store for every order in which the workers
    merge their files; the load returns, with the records of every file
    that parsed. *)
Theorem load_order_irrelevant_without_duplicates (d : string)
    (visited : list (string * bool)) (parse : string → option (list (string * value)))
    (schedule1 schedule2 : list string) :
  schedule1 ≡ₚ schedule2 → disjoint_ids parse schedule1 →
  ∃ ds, NewYAMLDatastore d visited None parse schedule1 = Returns None ds ∧
        NewYAMLDatastore d visited None parse schedule2 = Returns None ds ∧
        data ds = load_data parse schedule1 ∅.
Proof.
  intros Hp Hd. unfold NewYAMLDatastore, ConcurrentRead.
  rewrite !run_workers_no_index by done. simpl.
  rewrite (load_data_perm parse schedule1 schedule2 Hp Hd).
  eexists. split; [reflexivity|]. split; reflexivity.
Qed.

Lemma load_order_irrelevant_without_duplicates_witness :
  ∃ ds,
    NewYAMLDatastore "db" two_files_visited None two_disjoint_files
      ["db/records_a.yaml"; "db/records_b.yaml"] = Returns None ds ∧
    NewYAMLDatastore "db" two_files_visited None two_disjoint_files
      ["db/records_b.yaml"; "db/records_a.yaml"] = Returns None ds ∧
    data ds = load_data two_disjoint_files
                ["db/records_a.yaml"; "db/records_b.yaml"] ∅.
Proof.
  apply (load_order_irrelevant_without_duplicates "db" two_files_visited
           two_disjoint_files
           ["db/records_a.yaml"; "db/records_b.yaml"]
           ["db/records_b.yaml"; "db/records_a.yaml"]).
  - apply perm_swap.
  - intros p q rp rq id Hp Hq Hne Hpp Hpq Hi1 Hi2.
    apply elem_of_cons in Hp as [->|Hp]; [|apply list_elem_of_singleton in Hp as ->];
      (apply elem_of_cons in Hq as [->|Hq];
       [|apply list_elem_of_singleton in Hq as ->]); try done;
      vm_compute in Hpp, Hpq; simplify_eq;
      apply list_elem_of_singleton in Hi1, Hi2; by simplify_eq.
Defined.

(** ** The indexes of a reachable state *)

Lemma as_key_Some (val : value) (k : scalar) : as_key val = Some k → val = Scalar k.
Proof. destruct val; simpl; congruence. Qed.






Lemma build_index_lookup key order : ∀ acc index val id,
  build_index key order acc = Some index → index !! val = Some id →
  acc !! val = Some id ∨
  ∃ d, (id, d) ∈ order ∧ getNestedValue d key = Some (Scalar val).
Proof.
  induction order as [|[id0 d0] order IH]; intros acc index val id Hb Hl; simpl in Hb.
  - simplify_eq. by left.
  - destruct (getNestedValue d0 key) as [v|] eqn:Hv.
    + destruct (as_key v) as [k|] eqn:Hk; [|done]. apply as_key_Some in Hk as ->.
      destruct (IH _ _ _ _ Hb Hl) as [Hacc|(d & Hin & Hg)].
      * destruct (decide (k = val)) as [->|Hne].
        -- rewrite lookup_insert_eq in Hacc. simplify_eq.
           right. exists d0. split; [apply list_elem_of_here|done].
        -- rewrite lookup_insert_ne in Hacc by done. by left.
      * right. exists d. split; [by apply list_elem_of_further|done].
    + destruct (IH _ _ _ _ Hb Hl) as [Hacc|(d & Hin & Hg)]; [by left|].
      right. exists d. split; [by apply list_elem_of_further|done].
Qed.






(** ** C8: field paths that lead nowhere *)

Lemma strings_Split_cons (s : string) (sep : Ascii.ascii) :
  ∃ k ks, strings_Split s sep = k :: ks.
Proof.
  induction s as [|c s (k & ks & IH)]; simpl; [eauto|].
  case_decide; [eauto|]. rewrite IH. eauto.
Qed.


Lemma walk_app (ks ks' : list string) : ∀ doc,
  walk doc (ks ++ ks') = walk doc ks ≫= λ v, walk v ks'.
Proof.
  induction ks as [|k ks IH]; intros doc; simpl; [done|].
  destruct doc as [a|l|m|m]; simpl; try done.
  - destruct (assoc k m); simpl; [apply IH|done].
  - destruct (assoc (Str k) m); simpl; [apply IH|done].
Qed.

Lemma layered_no_transaction (ds : YAMLDatastore) (id : string) (d : value) :
  txActive ds = false → layered ds id d = Some d.
Proof. intros Ha. unfold layered. rewrite Ha. simpl. by case_match. Qed.

Lemma query_scan_lookup (ds : YAMLDatastore) (key value_ id : string) (x : value) :
  query_scan ds key value_ !! id = Some x ↔
  ∃ d val, data ds !! id = Some d ∧ layered ds id d = Some x ∧
    getNestedValue x key = Some val ∧ Sprintf_v val = value_.
Proof.
  unfold query_scan. rewrite map_lookup_imap.
  destruct (data ds !! id) as [d|]; simpl.
  - destruct (layered ds id d) as [d'|] eqn:Hl.
    + destruct (getNestedValue d' key) as [val|] eqn:Hv.
      * case_decide.
        -- split; [intros [= <-]; eauto 6|].
           intros (d0 & val0 & ? & ? & ? & ?). by simplify_eq.
        -- split; [done|]. intros (d0 & val0 & ? & ? & ? & ?). by simplify_eq.
      * split; [done|]. intros (d0 & val0 & ? & ? & ? & ?). by simplify_eq.
    + split; [done|]. intros (d0 & val0 & ? & ? & ? & ?). by simplify_eq.
  - split; [done|]. by intros (? & ? & ? & _).
Qed.

Lemma query_index_lookup (ds : YAMLDatastore) (value_ : string)
    (index : gmap scalar string) (id : string) (x : value) :
  query_index ds value_ index !! id = Some x ↔
  ∃ val, index !! val = Some id ∧ Sprintf_v (Scalar val) = value_ ∧
    layered ds id (default VNil (data ds !! id)) = Some x.
Proof.
  unfold query_index. revert id x.
  apply (map_fold_weak_ind (λ r m, ∀ id x, r !! id = Some x ↔
    ∃ val, m !! val = Some id ∧ Sprintf_v (Scalar val) = value_ ∧
      layered ds id (default VNil (data ds !! id)) = Some x)).
  { intros id x. rewrite lookup_empty. split; [done|].
    intros (val & H & _). by rewrite lookup_empty in H. }
  intros val id0 m r Hm IH id x.
  assert (∀ val', <[val := id0]> m !! val' = Some id ↔
            (val' = val ∧ id0 = id) ∨ (val' ≠ val ∧ m !! val' = Some id)) as Hins.
  { intros val'. destruct (decide (val' = val)) as [->|Hne].
    - rewrite lookup_insert_eq. naive_solver.
    - rewrite lookup_insert_ne by done. naive_solver. }
  assert (∀ val', m !! val' = Some id → val' ≠ val) as Hfresh by (intros ? ? ->; congruence).
  case_decide as Hs.
  - destruct (layered ds id0 (default VNil (data ds !! id0))) as [d|] eqn:Hl.
    + destruct (decide (id = id0)) as [->|Hne].
      * rewrite lookup_insert_eq. split.
        -- intros [= <-]. exists val. rewrite lookup_insert_eq. done.
        -- intros (val' & _ & _ & H3). congruence.
      * rewrite lookup_insert_ne by done. rewrite IH.
        split; intros (val' & H1 & H2 & H3); exists val'; (split; [|done]).
        -- apply Hins. right. eauto.
        -- apply Hins in H1 as [[_ ?]|[_ ?]]; [congruence|done].
    + rewrite IH. split; intros (val' & H1 & H2 & H3); exists val'; (split; [|done]).
      * apply Hins. right. eauto.
      * apply Hins in H1 as [[_ ?]|[_ ?]]; [congruence|done].
  - rewrite IH. split; intros (val' & H1 & H2 & H3); exists val'; (split; [|done]).
    + apply Hins. right. eauto.
    + apply Hins in H1 as [[-> _]|[_ ?]]; [congruence|done].
Qed.


(** ** C1: Query with and without an index *)




Lemma build_index_covers key order : ∀ acc index,
  build_index key order acc = Some index →
  (∀ val id, acc !! val = Some id → ∃ id', index !! val = Some id') ∧
  (∀ id d val, (id, d) ∈ order → getNestedValue d key = Some val →
     ∃ a id', val = Scalar a ∧ index !! a = Some id').
Proof.
  induction order as [|[id0 d0] order IH]; intros acc index Hb; simpl in Hb.
  - simplify_eq. split; [eauto|]. intros ? ? ? H. by apply elem_of_nil in H.
  - destruct (getNestedValue d0 key) as [v|] eqn:Hv.
    + destruct (as_key v) as [k|] eqn:Hk; [|done]. apply as_key_Some in Hk as ->.
      destruct (IH _ _ Hb) as [IHacc IHord]. split.
      * intros val id Hacc. destruct (decide (k = val)) as [->|Hne].
        -- apply (IHacc val id0). by rewrite lookup_insert_eq.
        -- apply (IHacc val id). by rewrite lookup_insert_ne.
      * intros id d val Hin Hg. apply elem_of_cons in Hin as [[= -> ->]|Hin].
        -- rewrite Hv in Hg. simplify_eq.
           destruct (IHacc k id0) as [id' ?]; [by rewrite lookup_insert_eq|]. eauto.
        -- by eapply IHord.
    + destruct (IH _ _ Hb) as [IHacc IHord]. split; [done|].
      intros id d val Hin Hg. apply elem_of_cons in Hin as [[= -> ->]|Hin].
      * congruence.
      * by eapply IHord.
Qed.







Lemma Set_no_transaction (ds ds' : YAMLDatastore) (recordID : string) (d : value)
    (fileID : string) (r : option error) :
  txActive ds = false → Set_ recordID d fileID ds = Returns r ds' →
  r = None ∧ data ds' = <[recordID := d]> (data ds) ∧ txActive ds' = false ∧
  dirty ds' = true ∧ cache ds' = None ∧
  files ds' = {[shard_path (dir ds) fileID]} ∪ files ds ∧
  updateIndexes recordID d (indexes ds) = Some (indexes ds').
Proof.
  intros Ha H. unfold Set_ in H. rewrite Ha in H.
  destruct (updateIndexes recordID d (indexes ds)); by simplify_eq.
Qed.





(** A store with one record that has no "dept" field. *)
Lemma one_record_reachable :
  ∃ ds, Set_ "u1" (named "Ann") "u1" (new_datastore "db") = Returns None ds ∧
        reachable ds ∧ data ds !! "u1" = Some (named "Ann") ∧ txActive ds = false.
Proof.
  eexists. split; [vm_compute; reflexivity|]. split.
  - eapply (reach_Set (new_datastore "db") "u1" (named "Ann") "u1");
      [apply reachable_new|vm_compute; reflexivity].
  - split; vm_compute; reflexivity.
Qed.


(** * Further properties of the code *)

(** ** Set, Get and Delete outside a transaction *)

Lemma reindex_None (recordID : string) (d : value) (key : string)
    (index : gmap scalar string) :
  reindex recordID d key index = None ↔
  ∃ val, getNestedValue d key = Some val ∧ as_key val = None.
Proof.
  unfold reindex. destruct (getNestedValue d key) as [val|].
  - destruct (as_key val) eqn:Hk.
    + split; [done|]. intros (? & [= <-] & ?). congruence.
    + split; eauto.
  - split; [done|]. by intros (? & ? & _).
Qed.

Lemma updateIndexes_None (recordID : string) (d : value)
    (idxs : gmap string (gmap scalar string)) :
  updateIndexes recordID d idxs = None ↔
  ∃ key val, is_Some (idxs !! key) ∧ getNestedValue d key = Some val ∧
    as_key val = None.
Proof.
  unfold updateIndexes. case_decide as HF.
  - split; [done|]. intros (key & val & [index Hi] & Hg & Hk).
    destruct (HF key index Hi) as [? Hre].
    assert (reindex recordID d key index = None) as Hn by (apply reindex_None; eauto).
    congruence.
  - split; [|done]. intros _.
    apply map_not_Forall in HF; [|apply _].
    destruct HF as (key & index & Hi & Hn).
    assert (reindex recordID d key index = None) as Hre.
    { destruct (reindex recordID d key index) eqn:E; [|done]. destruct Hn. eauto. }
    apply reindex_None in Hre as (val & ? & ?). exists key, val. eauto.
Qed.

(** [Set] outside a transaction panics exactly when the document holds a
    sequence or a mapping at a path that has an index; otherwise it returns
    no error. *)
Theorem Set_panics_iff_unhashable (ds : YAMLDatastore) (recordID : string)
    (d : value) (fileID : string) :
  txActive ds = false →
  (Set_ recordID d fileID ds = Panics ↔
     ∃ key val, is_Some (indexes ds !! key) ∧ getNestedValue d key = Some val ∧
       is_mapping val || match val with Seq _ => true | _ => false end = true) ∧
  (Set_ recordID d fileID ds ≠ Panics →
     ∃ ds', Set_ recordID d fileID ds = Returns None ds').
Proof.
  intros Ha. unfold Set_. rewrite Ha.
  destruct (updateIndexes recordID d (indexes ds)) as [idxs|] eqn:Hu.
  - split; [|eauto]. split; [done|]. intros (key & val & Hi & Hg & Hv).
    assert (updateIndexes recordID d (indexes ds) = None) as Hn.
    { apply updateIndexes_None. exists key, val. split; [done|]. split; [done|].
      by destruct val. }
    congruence.
  - split; [|done]. split; [|done]. intros _.
    apply updateIndexes_None in Hu as (key & val & Hi & Hg & Hk).
    exists key, val. split; [done|]. split; [done|]. by destruct val.
Qed.

Lemma Set_panics_iff_unhashable_witness :
  ∃ ds, CreateIndex "tags" [] (new_datastore "db") = Returns None ds ∧
    Set_ "u1" (Map [("tags", Seq [Scalar (Str "a")])]) "u1" ds = Panics ∧
    ∃ ds', Set_ "u1" (Map [("tags", Scalar (Str "a"))]) "u1" ds = Returns None ds'.
Proof.
  eexists. split; [vm_compute; reflexivity|]. split.
  - apply (Set_panics_iff_unhashable _ "u1" _ "u1"); [reflexivity|].
    exists "tags", (Seq [Scalar (Str "a")]).
    split; [by eexists; vm_compute|]. split; reflexivity.
  - apply (Set_panics_iff_unhashable _ "u1" _ "u1"); [reflexivity|].
    vm_compute. discriminate.
Defined.

(** What [Get] returns after a [Set] or a successful [Delete]: the new
    document, respectively nil, for the id written; what it returned before
    for every other id. *)
Theorem Get_after_write (ds ds' : YAMLDatastore) (recordID : string) (d : value)
    (fileID : string) (r : option error) :
  txActive ds = false →
  (Set_ recordID d fileID ds = Returns r ds' →
     Get recordID ds' = (d, None) ∧
     ∀ other, other ≠ recordID → Get other ds' = Get other ds) ∧
  (Delete recordID ds = Returns None ds' →
     is_Some (data ds !! recordID) ∧
     Get recordID ds' = (VNil, None) ∧
     ∀ other, other ≠ recordID → Get other ds' = Get other ds).
Proof.
  intros Ha. split.
  - intros H. apply Set_no_transaction in H as (_ & Hd & Ha' & _); [|done].
    unfold Get. rewrite Ha, Ha', Hd. rewrite lookup_insert_eq. split; [done|].
    intros other Hne. by rewrite lookup_insert_ne.
  - intros H. unfold Delete in H. rewrite Ha in H.
    destruct (data ds !! recordID) as [d0|] eqn:Hrec; [|done]. simplify_eq.
    split; [eauto|]. unfold Get; simpl. rewrite Ha, lookup_delete_eq.
    split; [done|]. intros other Hne. by rewrite lookup_delete_ne.
Qed.

Lemma Get_after_write_witness :
  ∃ ds ds', Set_ "u1" (named "Ann") "u1" (new_datastore "db") = Returns None ds ∧
    Get "u1" ds = (named "Ann", None) ∧
    Delete "u1" ds = Returns None ds' ∧
    Get "u1" ds' = (VNil, None).
Proof.
  eexists _, _. split; [vm_compute; reflexivity|].
  match goal with |- context [Delete "u1" ?s] => pose (S := s) end.
  split.
  - refine (proj1 (proj1 (Get_after_write (new_datastore "db") S "u1" (named "Ann")
                     "u1" None _) _)); [reflexivity|vm_compute; reflexivity].
  - split; [vm_compute; reflexivity|].
    refine (proj1 (proj2 (proj2 (Get_after_write S _ "u1" VNil "" None _) _)));
      [reflexivity|vm_compute; reflexivity].
Defined.

(** Reading a field of a state built with the setters. *)
Ltac fields :=
  cbn [data files indexes dir cache dirty txMu txActive txData heap
       set_data set_files set_indexes set_cache set_dirty set_txMu set_txActive
       set_txData set_heap invalidateCache] in *.







(** ** Index entries outside transactions *)




(** [CreateIndex] on a path that has an index returns the error "index
    already exists" and changes nothing; on a path without one it builds an
    index whose every entry [val -> id] names a record holding [val] at the
    path, and which has an entry for every hashable value held there. *)
Theorem CreateIndex_builds_or_conflicts (ds : YAMLDatastore) (key : string)
    (order : list (string * value)) :
  order ≡ₚ map_to_list (data ds) →
  (is_Some (indexes ds !! key) →
     CreateIndex key order ds = Returns (Some ErrIndexExists) ds) ∧
  (∀ r ds', indexes ds !! key = None → CreateIndex key order ds = Returns r ds' →
     r = None ∧ data ds' = data ds ∧
     (∀ order', CreateIndex key order' ds' = Returns (Some ErrIndexExists) ds') ∧
     ∃ index, indexes ds' !! key = Some index ∧
       (∀ val id, index !! val = Some id →
          ∃ d, data ds !! id = Some d ∧ getNestedValue d key = Some (Scalar val)) ∧
       (∀ id d val, data ds !! id = Some d → getNestedValue d key = Some val →
          ∃ a id', val = Scalar a ∧ index !! a = Some id')).
Proof.
  intros Hp. split.
  - intros [index Hi]. unfold CreateIndex. by rewrite Hi.
  - intros r ds' Hi H. unfold CreateIndex in H. rewrite Hi in H.
    destruct (build_index key order ∅) as [index|] eqn:Hb; [|done]. simplify_eq.
    split; [done|]. split; [done|]. split.
    { intros order'. unfold CreateIndex; simpl. by rewrite lookup_insert_eq. }
    exists index. simpl. rewrite lookup_insert_eq. split; [done|]. split.
    + intros val id Hl.
      destruct (build_index_lookup _ _ _ _ _ _ Hb Hl) as [Hacc|(d & Hin & Hg)].
      { by rewrite lookup_empty in Hacc. }
      rewrite Hp in Hin. apply elem_of_map_to_list in Hin. eauto.
    + intros id d val Hd Hg.
      assert ((id, d) ∈ order) as Hin by (rewrite Hp; by apply elem_of_map_to_list).
      by destruct (build_index_covers _ _ _ _ Hb) as [_ Hcov]; eapply Hcov.
Qed.

Lemma CreateIndex_builds_or_conflicts_witness :
  ∃ ds, CreateIndex "dept" [] (new_datastore "db") = Returns None ds ∧
        CreateIndex "dept" [] ds = Returns (Some ErrIndexExists) ds.
Proof.
  eexists. split; [vm_compute; reflexivity|].
  match goal with |- CreateIndex _ _ ?s = _ => pose (S := s) end.
  refine (proj1 (CreateIndex_builds_or_conflicts S "dept" [] _) _).
  - vm_compute. reflexivity.
  - eexists. vm_compute. reflexivity.
Defined.

(** ** Transactions *)

(** [Rollback] of the open transaction returns and leaves committed
    records, indexes, files, dirty flag and cache as they are; the store
    gets a new empty overlay, so [Get] returns committed documents again.
    A second [Rollback] unlocks a mutex that is not locked: a fatal error. *)
Theorem Rollback_discards_overlay (ds : YAMLDatastore) (tx : Transaction) :
  reachable ds → txActive ds = true →
  ∃ ds', Transaction.Rollback tx ds = Returns tt ds' ∧
    data ds' = data ds ∧ indexes ds' = indexes ds ∧ files ds' = files ds ∧
    dirty ds' = dirty ds ∧ cache ds' = cache ds ∧
    txActive ds' = false ∧ overlay_of ds' = ∅ ∧
    (∀ id, Get id ds' = (default VNil (data ds !! id), None)) ∧
    Transaction.Rollback tx ds' = Panics.
Proof.
  intros Hr Ha. pose proof (reachable_gate_held ds Hr Ha) as Hm.
  unfold Transaction.Rollback. rewrite Hm. eexists. split; [reflexivity|].
  simpl. repeat (split; [done|]). split.
  - unfold overlay_of; simpl. by rewrite list_lookup_middle.
  - split; [|done]. intros id. unfold Get; simpl. by destruct (data ds !! id).
Qed.

Lemma Rollback_discards_overlay_witness :
  ∃ ds ds', BeginTransaction (new_datastore "db") = Returns (Some (Tx 1), None) ds ∧
    Transaction.Rollback (Tx 1) ds = Returns tt ds' ∧
    data ds' = data ds ∧ indexes ds' = indexes ds ∧ files ds' = files ds ∧
    dirty ds' = dirty ds ∧ cache ds' = cache ds ∧
    txActive ds' = false ∧ overlay_of ds' = ∅ ∧
    (∀ id, Get id ds' = (default VNil (data ds !! id), None)) ∧
    Transaction.Rollback (Tx 1) ds' = Panics.
Proof.
  destruct open_db_reachable as (ds & Hb & Hr & Ha).
  destruct (Rollback_discards_overlay ds (Tx 1) Hr Ha) as (ds' & H).
  exists ds, ds'. split; [exact Hb|exact H].
Defined.

Lemma apply_entries_data (order : list (string * value)) : ∀ ds ds',
  NoDup order.*1 → Transaction.apply_entries order ds = Some ds' →
  (∀ id d, (id, d) ∈ order →
     data ds' !! id = if is_nil d then None else Some d) ∧
  (∀ id, id ∉ order.*1 → data ds' !! id = data ds !! id).
Proof.
  induction order as [|e order IH]; intros ds ds' Hnd H; simpl in H.
  - simplify_eq. split; [|done]. intros id d Hin. by apply elem_of_nil in Hin.
  - rewrite fmap_cons in Hnd. apply NoDup_cons in Hnd as [Hfresh Hnd].
    destruct (Transaction.apply_entry ds e) as [ds1|] eqn:He; [|done].
    destruct (IH _ _ Hnd H) as [IHin IHout].
    assert (data ds1 = if is_nil e.2 then delete e.1 (data ds)
                       else <[e.1 := e.2]> (data ds)) as Hd1.
    { unfold Transaction.apply_entry in He. destruct (is_nil e.2); [by simplify_eq|].
      destruct (updateIndexes _ _ _); by simplify_eq. }
    split.
    + intros id d Hin. apply elem_of_cons in Hin as [<-|Hin]; [|by apply IHin].
      simpl in *. rewrite IHout by done. rewrite Hd1. destruct (is_nil d).
      * apply lookup_delete_eq.
      * apply lookup_insert_eq.
    + intros id Hout. rewrite fmap_cons in Hout.
      apply not_elem_of_cons in Hout as [Hne Hout].
      rewrite IHout by done. rewrite Hd1. destruct (is_nil e.2).
      * by rewrite lookup_delete_ne.
      * by rewrite lookup_insert_ne.
Qed.

(** What [Commit] leaves in the store does not depend on the order in which
    it visits the overlay: a staged document replaces the record, a
    tombstone removes it, every other record stays.  The commit marks the
    store dirty, clears the cache, adds the transaction's files and ends
    the transaction. *)
Theorem Commit_applies_overlay (ds ds' : YAMLDatastore) (tx : Transaction)
    (ov : overlay) (order : list (string * value)) (r : option error) :
  heap ds !! tx_data tx = Some ov →
  order ≡ₚ map_to_list (ov_data ov) →
  Transaction.Commit tx order ds = Returns r ds' →
  r = None ∧
  (∀ id, data ds' !! id =
     match ov_data ov !! id with
     | Some d => if is_nil d then None else Some d
     | None => data ds !! id
     end) ∧
  dirty ds' = true ∧ cache ds' = None ∧ txActive ds' = false ∧ txMu ds' = false ∧
  files ds' = ov_files ov ∪ files ds.
Proof.
  intros Hov Hp H. unfold Transaction.Commit in H. rewrite Hov in H.
  destruct (Transaction.apply_entries order ds) as [ds1|] eqn:He; [|done].
  destruct (txMu ds); [|done]. simplify_eq. simpl.
  assert (NoDup order.*1) as Hnd.
  { rewrite Hp. apply NoDup_fst_map_to_list. }
  destruct (apply_entries_data _ _ _ Hnd He) as [Hin Hout].
  apply apply_entries_frame in He as (_ & _ & _ & _ & _ & _ & Hf & _).
  split; [done|]. split; [|by rewrite Hf].
  intros id. destruct (ov_data ov !! id) as [d|] eqn:Hl.
  - apply Hin. rewrite Hp. by apply elem_of_map_to_list.
  - apply Hout. intros Hid. apply list_elem_of_fmap in Hid as ([id' d] & -> & Hid).
    rewrite Hp in Hid. apply elem_of_map_to_list in Hid. simpl in Hl. congruence.
Qed.

Lemma Commit_applies_overlay_witness :
  ∃ ds', Transaction.Commit (Tx 1) [("u2", VNil); ("u1", named "Cy")] staged_db
           = Returns None ds' ∧
    data ds' !! "u1" = Some (named "Cy") ∧ data ds' !! "u2" = None ∧
    dirty ds' = true ∧ cache ds' = None ∧ txActive ds' = false.
Proof.
  destruct (Transaction.Commit (Tx 1) [("u2", VNil); ("u1", named "Cy")] staged_db)
    as [r ds'| |] eqn:Hc; [|vm_compute in Hc; discriminate..].
  destruct (Commit_applies_overlay staged_db ds' (Tx 1) staged_overlay
              [("u2", VNil); ("u1", named "Cy")] r)
    as (-> & Hd & H3 & H4 & H5 & _).
  - vm_compute. reflexivity.
  - vm_compute. first [reflexivity | apply perm_swap].
  - exact Hc.
  - exists ds'. split; [reflexivity|]. split; [|split; [|done]].
    + rewrite (Hd "u1"). reflexivity.
    + rewrite (Hd "u2"). reflexivity.
Defined.

(** A write through a transaction handle changes the overlay only.  The
    handle of the open transaction shares its maps with the store, so the
    staged document is what [Get] on the store returns; a handle whose
    transaction was rolled back writes into maps the store no longer reads. *)
Theorem handle_writes_are_shared (ds : YAMLDatastore) (tx : Transaction)
    (ov : overlay) (recordID : string) (d : value) (fileID : string) :
  heap ds !! tx_data tx = Some ov →
  ∃ ds', Transaction.Set_ tx recordID d fileID ds = Returns None ds' ∧
    data ds' = data ds ∧ indexes ds' = indexes ds ∧ files ds' = files ds ∧
    dirty ds' = dirty ds ∧ cache ds' = cache ds ∧
    (tx_data tx = txData ds →
       overlay_of ds' = <[recordID := d]> (overlay_of ds) ∧
       (txActive ds = true → Get recordID ds' = (d, None))) ∧
    (tx_data tx ≠ txData ds →
       overlay_of ds' = overlay_of ds ∧ ∀ id, Get id ds' = Get id ds).
Proof.
  intros Hov. unfold Transaction.Set_, stage. rewrite Hov.
  eexists. split; [reflexivity|]. fields. repeat (split; [done|]). split.
  - intros Heq. rewrite Heq in Hov |- *.
    assert (overlay_of (set_heap (<[txData ds := stage_set recordID d
              (shard_path (dir ds) fileID) ov]> (heap ds)) ds)
            = <[recordID := d]> (overlay_of ds)) as Hof.
    { rewrite (overlay_of_stage _ _ _ Hov). unfold overlay_of. by rewrite Hov. }
    split; [exact Hof|]. intros Ha. unfold Get. fields.
    by rewrite Ha, Hof, lookup_insert_eq.
  - intros Hne.
    assert (overlay_of (set_heap (<[tx_data tx := stage_set recordID d
              (shard_path (dir ds) fileID) ov]> (heap ds)) ds)
            = overlay_of ds) as Hof.
    { unfold overlay_of. fields. by rewrite list_lookup_insert_ne. }
    split; [exact Hof|]. intros id. unfold Get. fields. by rewrite Hof.
Qed.

Lemma handle_writes_are_shared_witness :
  ∃ ds ds', BeginTransaction (new_datastore "db") = Returns (Some (Tx 1), None) ds ∧
    Transaction.Set_ (Tx 1) "u1" (named "Ann") "u1" ds = Returns None ds' ∧
    Get "u1" ds' = (named "Ann", None) ∧ data ds' = data ds.
Proof.
  destruct open_db_reachable as (ds & Hb & Hr & Ha).
  assert (heap ds !! 1 = Some empty_overlay ∧ txData ds = 1) as [Hov Ht].
  { injection Hb as <-. split; reflexivity. }
  destruct (handle_writes_are_shared ds (Tx 1) empty_overlay "u1" (named "Ann") "u1" Hov)
    as (ds' & Hs & Hd & _ & _ & _ & _ & Hcur & _).
  exists ds, ds'. split; [exact Hb|]. split; [exact Hs|]. split; [|exact Hd].
  apply Hcur; [by rewrite Ht|exact Ha].
Defined.

(** ** Merge outside transactions *)

Lemma fresh_merge_no_transaction (ds : YAMLDatastore) :
  txActive ds = false → fresh_merge ds = data ds.
Proof.
  intros Ha. unfold fresh_merge. apply map_eq. intros id.
  rewrite map_lookup_imap. destruct (data ds !! id) as [d|]; [|done]. simpl.
  by apply layered_no_transaction.
Qed.

(** Outside a transaction every committed write clears the cache: the
    [Merge] that follows a [Set] or a successful [Delete] returns exactly
    the committed records, and the next [Merge] returns them again from the
    cache without changing the state. *)
Theorem Merge_after_write (ds ds1 : YAMLDatastore) (r : option error) :
  txActive ds = false →
  (∃ recordID d fileID, Set_ recordID d fileID ds = Returns r ds1) ∨
  (∃ recordID, Delete recordID ds = Returns r ds1 ∧ r = None) →
  ∃ ds2, Merge ds1 = Returns (data ds1, None) ds2 ∧
    cache ds2 = Some (data ds1) ∧ data ds2 = data ds1 ∧
    Merge ds2 = Returns (data ds1, None) ds2.
Proof.
  intros Ha Hw.
  assert (txActive ds1 = false ∧ cache ds1 = None) as [Ha1 Hc1].
  { destruct Hw as [(recordID & d & fileID & H)|(recordID & H & ->)].
    - apply Set_no_transaction in H; [|done]. tauto.
    - unfold Delete in H. rewrite Ha in H.
      destruct (data ds !! recordID); by simplify_eq. }
  unfold Merge. rewrite Hc1, (fresh_merge_no_transaction _ Ha1).
  eexists. split; [reflexivity|]. fields. done.
Qed.

Lemma Merge_after_write_witness :
  ∃ ds1 ds2, Set_ "u1" (named "Ann") "u1" (new_datastore "db") = Returns None ds1 ∧
    Merge ds1 = Returns (data ds1, None) ds2 ∧
    Merge ds2 = Returns (data ds1, None) ds2.
Proof.
  destruct one_record_reachable as (ds1 & Hs & _).
  destruct (Merge_after_write (new_datastore "db") ds1 None eq_refl)
    as (ds2 & Hm & _ & _ & Hm2).
  { left. by exists "u1", (named "Ann"), "u1". }
  exists ds1, ds2. split; [exact Hs|]. split; [exact Hm|exact Hm2].
Defined.

(** ** Query by scan *)

(** Without an index on the path and without a transaction, [Query]
    returns exactly the committed records whose field at the path is present
    and prints as the value asked for. *)
Theorem Query_scan_exact (ds : YAMLDatastore) (key value_ id : string) (d : value) :
  txActive ds = false → indexes ds !! key = None →
  ((Query key value_ ds).1 !! id = Some d ↔
     data ds !! id = Some d ∧
     ∃ val, getNestedValue d key = Some val ∧ Sprintf_v val = value_).
Proof.
  intros Ha Hi. unfold Query. rewrite Hi. simpl. rewrite query_scan_lookup. split.
  - intros (d0 & val & Hd & Hl & Hg & Hs).
    rewrite layered_no_transaction in Hl by done. simplify_eq. eauto.
  - intros (Hd & val & Hg & Hs). exists d, val.
    by rewrite layered_no_transaction.
Qed.

Lemma Query_scan_exact_witness :
  (Query "name" "Ann" (after (Set_ "u1" (named "Ann") "u1"))).1 !! "u1"
    = Some (named "Ann").
Proof.
  apply (Query_scan_exact (after (Set_ "u1" (named "Ann") "u1")) "name" "Ann" "u1"
           (named "Ann")); [reflexivity|reflexivity|].
  split; [vm_compute; reflexivity|].
  exists (Scalar (Str "Ann")). split; reflexivity.
Defined.

(** ** Field paths *)

Lemma strings_Split_app (a b : string) (sep : Ascii.ascii) :
  strings_Split (a +:+ String sep b) sep
  = (strings_Split a sep ++ strings_Split b sep)%list.
Proof.
  induction a as [|c a IH]; simpl.
  - by rewrite decide_True.
  - case_decide; rewrite IH; [done|].
    destruct (strings_Split_cons a sep) as (k & ks & ->). done.
Qed.

(** A path [a.b] is looked up by looking up [a] and then [b] in what was
    found; a key without a dot addresses the top-level field. *)
Theorem getNestedValue_dot (d : value) (a b : string) :
  getNestedValue d (a +:+ "." +:+ b)
  = getNestedValue d a ≫= λ v, getNestedValue v b.
Proof.
  unfold getNestedValue.
  change (a +:+ "." +:+ b) with (a +:+ String "."%char b).
  rewrite strings_Split_app. apply walk_app.
Qed.

(** ** Save *)

Lemma group_records_spec (d : string) (F : gset string) (m : gmap string value) :
  match group_records d F m with
  | Some fileData =>
      (∀ id x, m !! id = Some x → file_of d F id ∈ F) ∧
      ∀ path, fileData !! path =
        if decide (path ∈ F)
        then Some (filter (λ e, file_of d F e.1 = path) m) else None
  | None => ∃ id x, m !! id = Some x ∧ file_of d F id ∉ F
  end.
Proof.
  unfold group_records.
  apply (map_fold_weak_ind (λ acc m,
    match acc with
    | Some fileData =>
        (∀ id x, m !! id = Some x → file_of d F id ∈ F) ∧
        ∀ path, fileData !! path =
          if decide (path ∈ F)
          then Some (filter (λ e, file_of d F e.1 = path) m) else None
    | None => ∃ id x, m !! id = Some x ∧ file_of d F id ∉ F
    end)); clear m.
  - split; [intros id x H; by rewrite lookup_empty in H|].
    intros path. rewrite lookup_gset_to_gmap, map_filter_empty.
    by case_decide; simplify_option_eq.
  - intros i x m acc Hi IH. unfold group_step. destruct acc as [fileData|].
    + destruct IH as [Hall Hfd].
      destruct (fileData !! file_of d F i) as [records|] eqn:Hrec.
      * rewrite Hfd in Hrec. case_decide as Hin; [|done]. simplify_eq. split.
        { intros id x' [[-> _]|[_ ?]]%lookup_insert_Some; eauto. }
        intros path. destruct (decide (path = file_of d F i)) as [->|Hne].
        -- rewrite lookup_insert_eq, decide_True by done.
           by rewrite map_filter_insert_True.
        -- rewrite lookup_insert_ne by done. rewrite Hfd. case_decide; [|done].
           f_equal. rewrite map_filter_insert_False by (simpl; congruence).
           by rewrite delete_id.
      * rewrite Hfd in Hrec. case_decide as Hin; [done|].
        exists i, x. by rewrite lookup_insert_eq.
    + destruct IH as (id & x' & Hl & Hout). exists id, x'. split; [|done].
      rewrite lookup_insert_ne; [done|]. intros ->. congruence.
Qed.

Lemma group_records_assigned (ds : YAMLDatastore) :
  all_assigned ds →
  ∃ fileData, group_records (dir ds) (files ds) (data ds) = Some fileData ∧
    ∀ path, fileData !! path =
      if decide (path ∈ files ds) then Some (group_of ds path) else None.
Proof.
  intros Hall. pose proof (group_records_spec (dir ds) (files ds) (data ds)) as H.
  destruct (group_records _ _ _) as [fileData|].
  - exists fileData. split; [done|]. apply H.
  - destruct H as (id & x & Hl & Hout). destruct Hout. by eapply Hall.
Qed.

(** A dirty [Save] panics exactly when some record has no known shard file
    to fall back to: neither the file of its id prefix nor the default
    file is known; the disk is then untouched. *)
Theorem Save_panics_iff_unassigned io (order : list string) (ds : YAMLDatastore)
    (dk : disk) :
  dirty ds = true →
  (Save io order ds dk = (Panics, dk, []) ↔
     (∃ id d, data ds !! id = Some d ∧
        (shard_path (dir ds) (hd "" (strings_Split id "_")) ∉ files ds) ∧
        (shard_path (dir ds) "default" ∉ files ds))) ∧
  (all_assigned ds ↔
     (∀ dk' written, Save io order ds dk ≠ (Panics, dk', written))).
Proof.
  intros Hd.
  assert (∀ id, file_of (dir ds) (files ds) id ∉ files ds ↔
            (shard_path (dir ds) (hd "" (strings_Split id "_")) ∉ files ds) ∧
            (shard_path (dir ds) "default" ∉ files ds)) as Hfile.
  { intros id. unfold file_of. case_decide; tauto. }
  pose proof (group_records_spec (dir ds) (files ds) (data ds)) as H.
  unfold Save. rewrite Hd. simpl.
  destruct (group_records _ _ _) as [fileData|].
  - destruct H as [Hall _]. split.
    + split.
      * destruct (write_files io fileData order dk []) as [[? ?] [?|]]; done.
      * intros (id & d & Hl & Hout). apply Hfile in Hout. destruct Hout. eauto.
    + split.
      * intros _ dk' written.
        destruct (write_files io fileData order dk []) as [[? ?] [?|]]; done.
      * intros _. exact Hall.
  - destruct H as (id & d & Hl & Hout). split.
    + split; [|done]. intros _. exists id, d. split; [done|]. by apply Hfile.
    + split.
      * intros Hall. destruct Hout. by eapply Hall.
      * intros Hnp. by destruct (Hnp dk []).
Qed.

Lemma Save_panics_iff_unassigned_witness :
  Save (λ _ _, None) [] (after foreign_hint) ∅ = (Panics, ∅, []).
Proof.
  apply (Save_panics_iff_unassigned (λ _ _, None) [] (after foreign_hint) ∅);
    [reflexivity|].
  exists "a_1", (dept "eng"). split; [vm_compute; reflexivity|].
  split; vm_compute; set_solver.
Defined.

Lemma write_files_lookup io (fileData : disk) (order : list string) :
  ∀ dk written dk' written' err,
  write_files io fileData order dk written = (dk', written', err) →
  ∀ path g, dk' !! path = Some g →
    dk !! path = Some g ∨ (fileData !! path = Some g ∧ g ≠ ∅).
Proof.
  induction order as [|p order IH]; intros dk written dk' written' err H path g Hl;
    simpl in H.
  - simplify_eq. by left.
  - destruct (fileData !! p) as [records|] eqn:Hp; [|by eapply IH].
    destruct (decide (size records = 0)) as [Hs|Hs]; [by eapply IH|].
    destruct (io p records); [simplify_eq; by left|].
    destruct (IH _ _ _ _ _ H path g Hl) as [Hold|?]; [|by right].
    destruct (decide (p = path)) as [->|Hne].
    + rewrite lookup_insert_eq in Hold. simplify_eq. right. split; [done|].
      by apply map_size_non_empty_iff.
    + rewrite lookup_insert_ne in Hold by done. by left.
Qed.

Lemma write_files_untouched io (fileData : disk) (order : list string) (path : string) :
  fileData !! path = None ∨ fileData !! path = Some ∅ →
  ∀ dk written, (write_files io fileData order dk written).1.1 !! path = dk !! path.
Proof.
  intros Hp. induction order as [|p order IH]; intros dk written; simpl; [done|].
  destruct (fileData !! p) as [records|] eqn:Hrec; [|apply IH].
  destruct (decide (size records = 0)) as [Hs|Hs]; [apply IH|].
  destruct (io p records); [done|]. rewrite IH.
  apply lookup_insert_ne. intros ->. rewrite Hrec in Hp.
  destruct Hp as [?|[= ->]]; [done|]. by rewrite map_size_empty in Hs.
Qed.

Lemma write_files_total io (fileData : disk) (order : list string) :
  (∀ path records, io path records = None) →
  ∀ dk written, ∃ dk' written',
    write_files io fileData order dk written = (dk', written', None).
Proof.
  intros Hio. induction order as [|p order IH]; intros dk written; simpl; [eauto|].
  destruct (fileData !! p) as [records|]; [|apply IH].
  destruct (decide (size records = 0)); [apply IH|]. rewrite Hio. apply IH.
Qed.

Lemma group_of_lookup (ds : YAMLDatastore) (path id : string) (d : value) :
  group_of ds path !! id = Some d ↔
  data ds !! id = Some d ∧ file_of (dir ds) (files ds) id = path.
Proof. unfold group_of. by rewrite map_lookup_filter_Some. Qed.

(** When every record has a known file and no write fails, a dirty [Save]
    returns no error, clears the dirty flag, and leaves every record on the
    disk in the file of its id prefix (or the default file): each known
    file with records holds exactly its group.  A file whose group is empty
    is not written. *)
Theorem Save_writes_every_record io (order : list string) (ds : YAMLDatastore)
    (dk : disk) :
  dirty ds = true → order ≡ₚ elements (files ds) → all_assigned ds →
  (∀ path records, io path records = None) →
  ∃ dk' written,
    Save io order ds dk = (Returns None (set_dirty false ds), dk', written) ∧
    (∀ path, path ∈ files ds → group_of ds path ≠ ∅ →
       dk' !! path = Some (group_of ds path)) ∧
    (∀ id d, data ds !! id = Some d →
       ∃ g, dk' !! file_of (dir ds) (files ds) id = Some g ∧ g !! id = Some d) ∧
    (∀ path, group_of ds path = ∅ → dk' !! path = dk !! path).
Proof.
  intros Hd Hp Hall Hio.
  destruct (group_records_assigned ds Hall) as (fileData & Hg & Hfd).
  destruct (write_files_total io fileData order Hio dk []) as (dk' & written & Hw).
  exists dk', written. unfold Save. rewrite Hd, Hg, Hw. simpl. split; [done|].
  assert (∀ path, path ∈ files ds → group_of ds path ≠ ∅ →
            dk' !! path = Some (group_of ds path)) as Hwritten.
  { intros path Hin Hne.
    eapply (write_files_ok io fileData order dk [] dk' written Hw path).
    - rewrite Hp. by apply elem_of_elements.
    - by rewrite Hfd, decide_True.
    - by apply map_size_non_empty_iff. }
  split; [exact Hwritten|]. split.
  - intros id d Hl. exists (group_of ds (file_of (dir ds) (files ds) id)).
    assert (group_of ds (file_of (dir ds) (files ds) id) !! id = Some d) as Hin
      by by apply group_of_lookup.
    split; [|done]. apply Hwritten; [by eapply Hall|].
    intros He. by rewrite He, lookup_empty in Hin.
  - intros path He.
    assert (fileData !! path = None ∨ fileData !! path = Some ∅) as Hcond.
    { rewrite Hfd. case_decide; [right|left]; congruence. }
    pose proof (write_files_untouched io fileData order path Hcond dk []) as Hu.
    by rewrite Hw in Hu.
Qed.

Lemma all_assigned_one_record :
  all_assigned (after (Set_ "u1" (named "Ann") "u1")).
Proof.
  intros id d Hl.
  assert (id = "u1") as ->.
  { change (data (after (Set_ "u1" (named "Ann") "u1")))
      with (<["u1" := named "Ann"]> (∅ : gmap string value)) in Hl.
    apply lookup_insert_Some in Hl as [[<- _]|[_ Hl]]; [done|].
    by rewrite lookup_empty in Hl. }
  vm_compute. set_solver.
Qed.

Lemma Save_writes_every_record_witness :
  ∃ dk' written,
    Save (λ _ _, None) ["db/records_u1.yaml"] (after (Set_ "u1" (named "Ann") "u1")) ∅
      = (Returns None (set_dirty false (after (Set_ "u1" (named "Ann") "u1"))),
         dk', written) ∧
    ∃ g, dk' !! "db/records_u1.yaml" = Some g ∧ g !! "u1" = Some (named "Ann").
Proof.
  destruct (Save_writes_every_record (λ _ _, None) ["db/records_u1.yaml"]
              (after (Set_ "u1" (named "Ann") "u1")) ∅)
    as (dk' & written & Hs & _ & Hrec & _).
  - reflexivity.
  - vm_compute. reflexivity.
  - apply all_assigned_one_record.
  - done.
  - exists dk', written. split; [exact Hs|].
    apply (Hrec "u1" (named "Ann")). vm_compute. reflexivity.
Defined.

(** A [Save] never touches the file of a shard whose group is empty,
    whatever its outcome: after the last record of a shard is deleted, its
    file on disk keeps the old records. *)
Theorem Save_skips_empty_groups io (order : list string) (ds : YAMLDatastore)
    (dk : disk) (path : string) :
  group_of ds path = ∅ → (Save io order ds dk).1.2 !! path = dk !! path.
Proof.
  intros He. unfold Save. destruct (dirty ds); simpl; [|done].
  pose proof (group_records_spec (dir ds) (files ds) (data ds)) as H.
  destruct (group_records _ _ _) as [fileData|]; [|done].
  destruct H as [_ Hfd].
  assert (fileData !! path = None ∨ fileData !! path = Some ∅) as Hcond.
  { rewrite Hfd. unfold group_of in He. case_decide; [right|left]; congruence. }
  pose proof (write_files_untouched io fileData order path Hcond dk []) as Hu.
  by destruct (write_files io fileData order dk []) as [[dk' written] [err|]].
Qed.

Lemma Save_skips_empty_groups_witness :
  data deleted_db !! "u1" = None ∧ dirty deleted_db = true ∧
  (Save (λ _ _, None) ["db/records_u1.yaml"] deleted_db old_disk).1.2
    !! "db/records_u1.yaml" = Some {[ "u1" := named "Ann" ]}.
Proof.
  split; [vm_compute; reflexivity|]. split; [vm_compute; reflexivity|].
  etrans; [apply Save_skips_empty_groups|]; vm_compute; reflexivity.
Defined.

Lemma merge_data_lookup_Some (records : list (string * value)) (id : string) (d : value) :
  ∀ m, (id, d) ∈ records → (∀ d', (id, d') ∈ records → d' = d) →
  merge_data records m !! id = Some d.
Proof.
  induction records as [|e records IH]; intros m Hin Huniq.
  { by apply elem_of_nil in Hin. }
  change (merge_data records (<[e.1 := e.2]> m) !! id = Some d).
  destruct (decide (id ∈ records.*1)) as [Hid|Hid].
  - apply list_elem_of_fmap in Hid as ([id' d'] & -> & Hid).
    assert (d' = d) as -> by (apply Huniq; by apply list_elem_of_further).
    apply IH; [done|]. intros d'' ?. apply Huniq. by apply list_elem_of_further.
  - rewrite merge_data_lookup_notin by done.
    apply elem_of_cons in Hin as [<-|Hin]; [apply lookup_insert_eq|].
    destruct Hid. apply list_elem_of_fmap. by exists (id, d).
Qed.

Lemma load_data_lookup_None parse (schedule : list string) (id : string) :
  (∀ p r, p ∈ schedule → parse p = Some r → id ∉ r.*1) →
  ∀ m, load_data parse schedule m !! id = m !! id.
Proof.
  induction schedule as [|p schedule IH]; intros Hout m; [done|].
  unfold load_data in *. simpl. rewrite IH.
  - destruct (parse p) as [r|] eqn:Hp; [|done].
    apply merge_data_lookup_notin. eapply Hout; [apply list_elem_of_here|done].
  - intros q r Hq. apply Hout. by apply list_elem_of_further.
Qed.

Lemma load_data_lookup_Some parse (schedule : list string) (id : string) (d : value) :
  (∃ p r, p ∈ schedule ∧ parse p = Some r ∧ (id, d) ∈ r) →
  (∀ p r d', parse p = Some r → (id, d') ∈ r → d' = d) →
  ∀ m, load_data parse schedule m !! id = Some d.
Proof.
  intros Hex Huniq m. induction schedule as [|q schedule IH] using rev_ind.
  { destruct Hex as (p & r & Hp & _). by apply elem_of_nil in Hp. }
  unfold load_data in *. rewrite foldl_app. simpl.
  destruct (parse q) as [rq|] eqn:Hq.
  - destruct (decide (id ∈ rq.*1)) as [Hid|Hid].
    + apply list_elem_of_fmap in Hid as ([id' d'] & -> & Hid).
      assert (d' = d) as -> by by eapply (Huniq q rq).
      apply merge_data_lookup_Some; [done|]. intros d'. by apply (Huniq q rq).
    + rewrite merge_data_lookup_notin by done. apply IH.
      destruct Hex as (p & r & Hp & Hr & Hin).
      apply elem_of_app in Hp as [Hp|Hp]; [eauto|].
      apply list_elem_of_singleton in Hp as ->. simplify_eq.
      destruct Hid. apply list_elem_of_fmap. by exists (id, d).
  - apply IH. destruct Hex as (p & r & Hp & Hr & Hin).
    apply elem_of_app in Hp as [Hp|Hp]; [eauto|].
    apply list_elem_of_singleton in Hp as ->. congruence.
Qed.

(** Round trip.  After a [Save] into an empty directory that returned no
    error, reading the files back and merging them, in any order, into an
    empty store gives exactly the committed records. *)
Theorem Save_then_load_round_trip io (order schedule : list string)
    (ds ds' : YAMLDatastore) (dk' : disk) (written : list string) :
  dirty ds = true → order ≡ₚ elements (files ds) →
  Save io order ds ∅ = (Returns None ds', dk', written) →
  (∀ path, is_Some (dk' !! path) → path ∈ schedule) →
  load_data (parse_disk dk') schedule ∅ = data ds.
Proof.
  intros Hd Hp Hs Hsched.
  assert (all_assigned ds) as Hall.
  { pose proof (group_records_spec (dir ds) (files ds) (data ds)) as Hspec.
    unfold Save in Hs. rewrite Hd in Hs. simpl in Hs.
    destruct (group_records _ _ _); [exact (proj1 Hspec)|done]. }
  destruct (group_records_assigned ds Hall) as (fileData & Hg & Hfd).
  unfold Save in Hs. rewrite Hd, Hg in Hs. simpl in Hs.
  destruct (write_files io fileData order ∅ []) as [[dk1 w1] [err|]] eqn:Hw;
    simplify_eq.
  assert (∀ path g, dk' !! path = Some g → g = group_of ds path) as Hon_disk.
  { intros path g Hl.
    destruct (write_files_lookup _ _ _ _ _ _ _ _ Hw path g Hl) as [Hl0|[Hl0 _]].
    - by rewrite lookup_empty in Hl0.
    - rewrite Hfd in Hl0. case_decide; by simplify_eq. }
  assert (∀ p r id d, parse_disk dk' p = Some r → (id, d) ∈ r → data ds !! id = Some d)
    as Hparsed.
  { intros p r id d Hr Hin. unfold parse_disk in Hr.
    destruct (dk' !! p) as [g|] eqn:Hl; simplify_eq/=.
    apply elem_of_map_to_list in Hin. rewrite (Hon_disk p g Hl) in Hin.
    by apply group_of_lookup in Hin as [? _]. }
  apply map_eq. intros id. destruct (data ds !! id) as [d|] eqn:Hrec.
  - apply load_data_lookup_Some.
    + pose (p := file_of (dir ds) (files ds) id).
      assert (group_of ds p !! id = Some d) as Hin by by apply group_of_lookup.
      assert (dk' !! p = Some (group_of ds p)) as Hl.
      { eapply (write_files_ok io fileData order ∅ [] dk' _ Hw p).
        - rewrite Hp. apply elem_of_elements. by eapply Hall.
        - rewrite Hfd, decide_True; [done|]. by eapply Hall.
        - apply map_size_non_empty_iff. intros He. by rewrite He, lookup_empty in Hin. }
      exists p, (map_to_list (group_of ds p)). split; [apply Hsched; eauto|].
      split; [unfold parse_disk; by rewrite Hl|]. by apply elem_of_map_to_list.
    + intros p r d' Hr Hin. pose proof (Hparsed p r id d' Hr Hin). congruence.
  - rewrite load_data_lookup_None; [apply lookup_empty|].
    intros p r _ Hr Hid. apply list_elem_of_fmap in Hid as ([id' d'] & -> & Hid).
    pose proof (Hparsed p r id' d' Hr Hid). simpl in *. congruence.
Qed.

Lemma Save_then_load_round_trip_witness :
  Save (λ _ _, None) ["db/records_u1.yaml"] (after (Set_ "u1" (named "Ann") "u1")) ∅
    = (Returns None (set_dirty false (after (Set_ "u1" (named "Ann") "u1"))),
       old_disk, ["db/records_u1.yaml"]) ∧
  load_data (parse_disk old_disk) ["db/records_u1.yaml"] ∅
    = data (after (Set_ "u1" (named "Ann") "u1")).
Proof.
  assert (Save (λ _ _, None) ["db/records_u1.yaml"]
            (after (Set_ "u1" (named "Ann") "u1")) ∅
          = (Returns None (set_dirty false (after (Set_ "u1" (named "Ann") "u1"))),
             old_disk, ["db/records_u1.yaml"])) as Hs by (vm_compute; reflexivity).
  split; [exact Hs|].
  apply (Save_then_load_round_trip (λ _ _, None) ["db/records_u1.yaml"]
           ["db/records_u1.yaml"] (after (Set_ "u1" (named "Ann") "u1"))
           (set_dirty false (after (Set_ "u1" (named "Ann") "u1")))
           old_disk ["db/records_u1.yaml"]); [reflexivity| |exact Hs|].
  - vm_compute. reflexivity.
  - intros path [g Hl]. unfold old_disk in Hl.
    apply lookup_singleton_Some in Hl as [<- _]. apply list_elem_of_here.
Defined.

(** ** The command line and Save *)

Lemma strings_Split_head (s : string) (sep : Ascii.ascii) (P : Ascii.ascii → bool) :
  forallb P (String.list_ascii_of_string s) = true →
  forallb (λ c, P c && negb (bool_decide (c = sep)))
    (String.list_ascii_of_string (hd "" (strings_Split s sep))) = true.
Proof.
  induction s as [|c s IH]; simpl; [done|].
  intros [Hc Hs]%andb_true_iff. case_decide as Hsep; [done|].
  destruct (strings_Split_cons s sep) as (k & ks & Hk). rewrite Hk in IH |- *.
  simpl in *. rewrite Hc, (IH Hs). by rewrite bool_decide_eq_false_2.
Qed.

(** The file id derived from a valid record id is made of letters and
    digits only: the shard file of a record set from the command line is
    always a file "records_<letters and digits>.yaml" of the data directory. *)
Theorem file_id_is_alphanumeric (recordID : string) :
  isValidID recordID = true →
  forallb is_alnum (String.list_ascii_of_string (file_id recordID)) = true.
Proof.
  intros Hv. unfold isValidID in Hv.
  assert (forallb (λ c, is_alnum c || bool_decide (c = "_"%char))
            (String.list_ascii_of_string recordID) = true) as Hall.
  { destruct recordID; [done|exact Hv]. }
  pose proof (strings_Split_head recordID "_" _ Hall) as H.
  unfold file_id. apply forallb_forall. intros c Hc.
  rewrite forallb_forall in H. specialize (H c Hc).
  apply andb_true_iff in H as [H1 H2]. apply negb_true_iff in H2.
  rewrite H2 in H1. by rewrite orb_false_r in H1.
Qed.

Lemma file_id_is_alphanumeric_witness :
  forallb is_alnum (String.list_ascii_of_string (file_id "user_42")) = true.
Proof. apply file_id_is_alphanumeric. reflexivity. Defined.

Lemma Set_keeps_dir (ds ds' : YAMLDatastore) (recordID : string) (d : value)
    (fileID : string) (r : option error) :
  Set_ recordID d fileID ds = Returns r ds' → dir ds' = dir ds.
Proof.
  unfold Set_, stage. intros H. repeat case_match; by simplify_eq.
Qed.

(** Records set with the file id of their own id, as the [set] command
    does, never make [Save] panic: if every record had a known file before
    such a [Set], or before a [Delete], every record has one afterwards. *)
Theorem cmd_set_keeps_records_assigned (ds ds' : YAMLDatastore) (recordID : string)
    (d : value) (b : bool) (r : option error) :
  txActive ds = false → all_assigned ds →
  cmd_set recordID d ds = Returns b ds' ∨ Delete recordID ds = Returns r ds' →
  all_assigned ds' ∧
  ∀ io order dk dk' written, Save io order ds' dk ≠ (Panics, dk', written).
Proof.
  intros Ha Hall Hcall.
  assert (all_assigned ds') as Hall'.
  { destruct Hcall as [H|H].
    - unfold cmd_set in H. destruct (isValidID recordID); [|by unfold ret in H; simplify_eq].
      unfold bind in H.
      destruct (Set_ recordID d (file_id recordID) ds) as [r0 ds0| |] eqn:Hs; [|done..].
      unfold ret in H. simplify_eq.
      pose proof (Set_keeps_dir _ _ _ _ _ _ Hs) as Hdir.
      apply Set_no_transaction in Hs as (_ & Hd & _ & _ & _ & Hf & _); [|done].
      intros id x Hl. rewrite Hd in Hl. rewrite Hf. unfold file_of.
      case_decide as Hin; [done|].
      rewrite Hdir in Hin |- *.
      apply lookup_insert_Some in Hl as [[<- _]|[_ Hl]].
      + destruct Hin. unfold file_id. set_solver.
      + specialize (Hall id x Hl). unfold file_of in Hall.
        case_decide as Hold; [destruct Hin; set_solver|set_solver].
    - unfold Delete in H. rewrite Ha in H.
      destruct (data ds !! recordID); simplify_eq; [|done].
      intros id x Hl. fields. apply lookup_delete_Some in Hl as [_ Hl].
      by eapply Hall. }
  split; [exact Hall'|]. intros io order dk dk' written.
  destruct (group_records_assigned ds' Hall') as (fileData & Hg & _).
  unfold Save. destruct (dirty ds'); simpl; [|done]. rewrite Hg.
  by destruct (write_files io fileData order dk []) as [[? ?] [?|]].
Qed.

Lemma cmd_set_keeps_records_assigned_witness :
  cmd_set "user_42" (named "Ann") (new_datastore "db")
    = Returns true (after (cmd_set "user_42" (named "Ann"))) ∧
  all_assigned (after (cmd_set "user_42" (named "Ann"))) ∧
  ∀ io order dk dk' written,
    Save io order (after (cmd_set "user_42" (named "Ann"))) dk ≠ (Panics, dk', written).
Proof.
  assert (cmd_set "user_42" (named "Ann") (new_datastore "db")
          = Returns true (after (cmd_set "user_42" (named "Ann")))) as Hc
    by (vm_compute; reflexivity).
  split; [exact Hc|].
  apply (cmd_set_keeps_records_assigned (new_datastore "db") _ "user_42" (named "Ann")
           true None); [reflexivity| |by left].
  intros id x Hl. simpl in Hl. by rewrite lookup_empty in Hl.
Defined.

(** ** Reads inside a transaction *)

Lemma layered_in_transaction (ds : YAMLDatastore) (id : string) (d0 d : value) :
  txActive ds = true → layered ds id d0 = Some d →
  overlay_of ds !! id = Some d ∧ is_nil d = false.
Proof.
  intros Ha. unfold layered, staged. rewrite Ha. simpl.
  destruct (overlay_of ds !! id) as [txd|]; simpl; [|done].
  destruct (is_nil txd) eqn:Hn; simpl; [done|]. by intros [= <-].
Qed.

(** While a transaction is open, [Query] (on either branch) and the loop of
    [Merge] return a record only when the overlay holds a non-null document
    for it, and return that document: committed records the transaction
    has not staged are left out. *)
Theorem open_transaction_hides_unstaged (ds : YAMLDatastore) (key value_ id : string)
    (d : value) :
  txActive ds = true →
  (Query key value_ ds).1 !! id = Some d ∨ fresh_merge ds !! id = Some d →
  overlay_of ds !! id = Some d ∧ is_nil d = false.
Proof.
  intros Ha [Hq|Hm].
  - unfold Query in Hq. destruct (indexes ds !! key) as [index|]; simpl in Hq.
    + apply query_index_lookup in Hq as (val & _ & _ & Hl).
      by eapply layered_in_transaction.
    + apply query_scan_lookup in Hq as (d0 & val & _ & Hl & _).
      by eapply layered_in_transaction.
  - unfold fresh_merge in Hm. rewrite map_lookup_imap in Hm.
    destruct (data ds !! id) as [d0|]; [|done]. simpl in Hm.
    by eapply layered_in_transaction.
Qed.

(** In [staged_db] the record "u2" is committed and deleted in the overlay,
    "u1" is replaced in the overlay. *)
Lemma open_transaction_hides_unstaged_witness :
  fresh_merge staged_db !! "u1" = Some (named "Cy") ∧
  overlay_of staged_db !! "u1" = Some (named "Cy") ∧ is_nil (named "Cy") = false.
Proof.
  assert (fresh_merge staged_db !! "u1" = Some (named "Cy")) as Hm
    by (vm_compute; reflexivity).
  split; [exact Hm|].
  apply (open_transaction_hides_unstaged staged_db "name" "Cy" "u1" (named "Cy"));
    [reflexivity|by right].
Defined.

(** ** Invariants of the reachable states, together *)



(** ** The loader *)

Lemma merge_data_origin (records : list (string * value)) (id : string) (d : value) :
  ∀ m, merge_data records m !! id = Some d → m !! id = Some d ∨ (id, d) ∈ records.
Proof.
  induction records as [|e records IH]; intros m Hl; [by left|].
  change (merge_data records (<[e.1 := e.2]> m) !! id = Some d) in Hl.
  destruct (IH _ Hl) as [Hm|Hin]; [|right; by apply list_elem_of_further].
  destruct (decide (e.1 = id)) as [<-|Hne].
  - rewrite lookup_insert_eq in Hm. simplify_eq. right. destruct e. apply list_elem_of_here.
  - rewrite lookup_insert_ne in Hm by done. by left.
Qed.

Lemma load_data_origin parse (schedule : list string) (id : string) (d : value) :
  ∀ m, load_data parse schedule m !! id = Some d →
  m !! id = Some d ∨ ∃ p r, p ∈ schedule ∧ parse p = Some r ∧ (id, d) ∈ r.
Proof.
  induction schedule as [|q schedule IH]; intros m Hl; [by left|].
  unfold load_data in *. simpl in Hl.
  destruct (IH _ Hl) as [Hm|(p & r & Hp & Hr & Hin)].
  - destruct (parse q) as [rq|] eqn:Hq; [|by left].
    apply merge_data_origin in Hm as [?|Hin]; [by left|].
    right. exists q, rq. split; [apply list_elem_of_here|done].
  - right. exists p, r. split; [by apply list_elem_of_further|done].
Qed.

(** Loading never fails on a file: a file that cannot be read or parsed is
    skipped and the others are merged.  [NewYAMLDatastore] returns a clean
    store without indexes or transaction, that knows every ".yaml" file
    found, and whose every record comes from a file that parsed.  It fails
    only when the directory walk itself does. *)
Theorem load_isolates_file_errors (d : string) (visited : list (string * bool))
    (parse : string → option (list (string * value))) (schedule : list string) :
  (∃ ds, NewYAMLDatastore d visited None parse schedule = Returns None ds ∧
     dirty ds = false ∧ txActive ds = false ∧ indexes ds = ∅ ∧ cache ds = None ∧
     files ds = list_to_set (yaml_files visited) ∧
     data ds = load_data parse schedule ∅ ∧
     (∀ id doc, data ds !! id = Some doc →
        ∃ p r, p ∈ schedule ∧ parse p = Some r ∧ (id, doc) ∈ r) ∧
     (∀ id, (∀ p r, p ∈ schedule → parse p = Some r → id ∉ r.*1) →
        data ds !! id = None)) ∧
  (∀ err, ∃ ds, NewYAMLDatastore d visited (Some err) parse schedule
                  = Returns (Some err) ds ∧ data ds = ∅).
Proof.
  split.
  - unfold NewYAMLDatastore, ConcurrentRead.
    rewrite run_workers_no_index by done. eexists. split; [reflexivity|]. fields.
    repeat (split; [done|]). split; [set_solver|]. split; [done|]. split.
    + intros id doc Hl. apply load_data_origin in Hl as [Hl|?]; [|done].
      by rewrite lookup_empty in Hl.
    + intros id Hout. by rewrite load_data_lookup_None.
  - intros err. unfold NewYAMLDatastore, ConcurrentRead. eexists. split; reflexivity.
Qed.

(** ** Witnesses for properties proved above *)

Lemma BeginTransaction_after_end_witness :
  Transaction.Rollback (Tx 1) (after BeginTransaction)
    = Returns tt (after (BeginTransaction ;;; Transaction.Rollback (Tx 1))) ∧
  ∃ tx' ds'',
    BeginTransaction (after (BeginTransaction ;;; Transaction.Rollback (Tx 1)))
      = Returns (Some tx', None) ds'' ∧
    heap ds'' !! tx_data tx' = Some empty_overlay ∧
    txData ds'' = tx_data tx' ∧ txActive ds'' = true.
Proof.
  assert (Transaction.Rollback (Tx 1) (after BeginTransaction)
          = Returns tt (after (BeginTransaction ;;; Transaction.Rollback (Tx 1))))
    as Hroll by (vm_compute; reflexivity).
  split; [exact Hroll|].
  exact (BeginTransaction_after_end _ _ (Tx 1) [] (or_intror Hroll)).
Defined.


(** A write that fails: the error comes back and the store stays dirty. *)
Lemma Save_dirty_flag_witness :
  Save (λ path _, Some (ErrIO path)) ["db/records_u1.yaml"]
    (after (Set_ "u1" (named "Ann") "u1")) ∅
    = (Returns (Some (ErrIO "db/records_u1.yaml")) (after (Set_ "u1" (named "Ann") "u1")),
       ∅, []) ∧
  dirty (after (Set_ "u1" (named "Ann") "u1")) = true ∧
  ∃ fileData path records,
    group_records "db" (files (after (Set_ "u1" (named "Ann") "u1")))
      (data (after (Set_ "u1" (named "Ann") "u1"))) = Some fileData ∧
    fileData !! path = Some records ∧
    ErrIO path = ErrIO "db/records_u1.yaml".
Proof.
  assert (Save (λ path _, Some (ErrIO path)) ["db/records_u1.yaml"]
            (after (Set_ "u1" (named "Ann") "u1")) ∅
          = (Returns (Some (ErrIO "db/records_u1.yaml"))
               (after (Set_ "u1" (named "Ann") "u1")), ∅, [])) as Hs
    by (vm_compute; reflexivity).
  split; [exact Hs|]. split; [reflexivity|].
  destruct (Save_dirty_flag (λ path _, Some (ErrIO path)) ["db/records_u1.yaml"]
              (after (Set_ "u1" (named "Ann") "u1")) _ ∅ _ _ _ eq_refl Hs)
    as (_ & fileData & path & records & Hg & Hl & Hio).
  exists fileData, path, records. split; [exact Hg|]. split; [exact Hl|].
  clear -Hio. by injection Hio as ->.
Defined.
